(** * bcdl: the download engine of the Bandcamp collection downloader

    A shallow embedding of [internal/filetype.go], [internal/history.go],
    [internal/download.go] and [main.go] (with its command-line variant),
    and the properties of the worker pool, the retry rule, the history file
    and the pagination loop. *)

From Stdlib Require Import Ascii String ZArith Lia.
From stdpp Require Import gmap strings list.

Open Scope Z_scope.

(** ** Byte strings

    A Go [string] is a sequence of bytes; it is modelled as a [string], one
    [ascii] per byte. *)

Definition LF : ascii := ascii_of_nat 10.
Definition CR : ascii := ascii_of_nat 13.

Fixpoint bytes_of_string (s : string) : list Z :=
  match s with
  | EmptyString => []
  | String a r => Z.of_N (N_of_ascii a) :: bytes_of_string r
  end.

Fixpoint string_of_bytes (bs : list Z) : string :=
  match bs with
  | [] => EmptyString
  | b :: r => String (ascii_of_N (Z.to_N b)) (string_of_bytes r)
  end.

(** ** crypto/md5 (RFC 1321)

    [md5.New], [io.WriteString] and [Sum(nil)] of the Go standard library:
    the digest of the bytes written so far, 16 bytes. *)

Module MD5.

Definition w32 (x : Z) : Z := x mod 2 ^ 32.

Definition rotl32 (x c : Z) : Z :=
  w32 (Z.lor (Z.shiftl x c) (Z.shiftr x (32 - c))).

Definition not32 (x : Z) : Z := Z.lxor x 4294967295.

Definition K : list Z :=
  [3614090360; 3905402710; 606105819; 3250441966; 4118548399; 1200080426;
   2821735955; 4249261313; 1770035416; 2336552879; 4294925233; 2304563134;
   1804603682; 4254626195; 2792965006; 1236535329; 4129170786; 3225465664;
   643717713; 3921069994; 3593408605; 38016083; 3634488961; 3889429448;
   568446438; 3275163606; 4107603335; 1163531501; 2850285829; 4243563512;
   1735328473; 2368359562; 4294588738; 2272392833; 1839030562; 4259657740;
   2763975236; 1272893353; 4139469664; 3200236656; 681279174; 3936430074;
   3572445317; 76029189; 3654602809; 3873151461; 530742520; 3299628645;
   4096336452; 1126891415; 2878612391; 4237533241; 1700485571; 2399980690;
   4293915773; 2240044497; 1873313359; 4264355552; 2734768916; 1309151649;
   4149444226; 3174756917; 718787259; 3951481745].

Definition S : list Z :=
  [7; 12; 17; 22; 7; 12; 17; 22; 7; 12; 17; 22; 7; 12; 17; 22;
   5; 9; 14; 20; 5; 9; 14; 20; 5; 9; 14; 20; 5; 9; 14; 20;
   4; 11; 16; 23; 4; 11; 16; 23; 4; 11; 16; 23; 4; 11; 16; 23;
   6; 10; 15; 21; 6; 10; 15; 21; 6; 10; 15; 21; 6; 10; 15; 21].

Definition le_bytes (n : nat) (x : Z) : list Z :=
  map (fun i => Z.land (Z.shiftr x (8 * Z.of_nat i)) 255) (seq 0 n).

(** Padding: one 0x80 byte, zeros up to 56 modulo 64, then the bit length
    as a 64-bit little-endian integer. *)
Definition pad (msg : list Z) : list Z :=
  let len := Z.of_nat (length msg) in
  msg ++ [128] ++ repeat 0 (Z.to_nat ((55 - len) mod 64))
      ++ le_bytes 8 ((8 * len) mod 2 ^ 64).

Fixpoint le_words (bs : list Z) : list Z :=
  match bs with
  | b0 :: b1 :: b2 :: b3 :: r =>
      (b0 + 256 * b1 + 65536 * b2 + 16777216 * b3) :: le_words r
  | _ => []
  end.

Definition word_at (ws : list Z) (i : Z) : Z := nth (Z.to_nat i) ws 0.

Definition state : Type := Z * Z * Z * Z.

Definition round (M : list Z) (st : state) (i : Z) : state :=
  let '(a, b, c, d) := st in
  let '(f, g) :=
    if i <? 16 then (Z.lor (Z.land b c) (Z.land (not32 b) d), i)
    else if i <? 32 then
      (Z.lor (Z.land d b) (Z.land (not32 d) c), (5 * i + 1) mod 16)
    else if i <? 48 then (Z.lxor b (Z.lxor c d), (3 * i + 5) mod 16)
    else (Z.lxor c (Z.lor b (not32 d)), (7 * i) mod 16) in
  let f' := w32 (f + a + word_at K i + word_at M g) in
  (d, w32 (b + rotl32 f' (word_at S i)), b, c).

Definition block (st : state) (M : list Z) : state :=
  let '(a0, b0, c0, d0) := st in
  let '(a, b, c, d) :=
    fold_left (round M) (map Z.of_nat (seq 0 64)) st in
  (w32 (a0 + a), w32 (b0 + b), w32 (c0 + c), w32 (d0 + d)).

Fixpoint blocks (n : nat) (ws : list Z) (st : state) : state :=
  match n with
  | O => st
  | Datatypes.S n' => blocks n' (drop 16 ws) (block st (take 16 ws))
  end.

Definition init : state := (1732584193, 4023233417, 2562383102, 271733878).

Definition sum (msg : list Z) : list Z :=
  let ws := le_words (pad msg) in
  let '(a, b, c, d) := blocks (length ws / 16)%nat ws init in
  le_bytes 4 a ++ le_bytes 4 b ++ le_bytes 4 c ++ le_bytes 4 d.

End MD5.

(** ** internal/filetype.go *)

(** [type FileType string] *)
Abbreviation FileType := string (only parsing).

Definition MP3_VO : FileType := "mp3-v0".
Definition MP3_320 : FileType := "mp3-320".
Definition FLAC : FileType := "flac".
Definition AAC_HI : FileType := "aac-hi".
Definition VORBIS : FileType := "vorbis".
Definition ALAC : FileType := "alac".
Definition WAV : FileType := "wave".
Definition AIFF_LOSSLESS : FileType := "aiff-lossless".

Definition AllFileTypes : list FileType :=
  [MP3_320; MP3_VO; FLAC; AAC_HI; VORBIS; ALAC; WAV; AIFF_LOSSLESS].

(** ** Errors

    Go [error] values.  [Errorf] keeps the format string of [fmt.Errorf] and
    its arguments ([%w] and [%v] take an error, [%s] a string, [%f] the
    minutes of a duration); [driverError] is an error value that comes from
    outside the package (the page driver, the operating system). *)

Inductive error : Type :=
| driverError (msg : string)
| Errorf (format : string) (args : list fmtArg)
with fmtArg : Type :=
| argError (e : error)
| argString (s : string)
| argMinutes (d : Z).

(** ** internal/history.go *)

(** The open history file: its contents.  The file is opened with
    [O_APPEND], so every write lands at its end. *)
Record historyFile : Type := { file : string }.

Record History : Type := {
  hfile : historyFile;
  items : gmap string bool
}.

(** [os.OpenFile(path, O_APPEND|O_CREATE|O_RDWR, 0o600)]: [openErr] is the
    error of the call, [contents] the bytes of the file at [path] (none when
    the file has just been created). *)
Definition newHistoryFile (openErr : option error) (contents : string)
  : historyFile + error :=
  match openErr with
  | Some err => inr err
  | None => inl {| file := contents |}
  end.

(** [bufio.ScanLines]: drop one trailing carriage return of a line. *)
Fixpoint dropCR (line : string) : string :=
  match line with
  | EmptyString => EmptyString
  | String c EmptyString => if Ascii.eqb c CR then EmptyString else line
  | String c r => String c (dropCR r)
  end.

(** [bufio.MaxScanTokenSize], the size to which the buffer of a
    [bufio.Scanner] grows: [64 * 1024] bytes. *)
Definition MaxScanTokenSize : Z := 64 * 1024.

(** [bufio.Scanner] with the default split function [ScanLines]: the tokens
    [Scan] delivers from [data], where [line] holds the bytes of the current
    line read so far.  A line ends at a line feed; the rest after the last
    line feed is a line too when it is not empty.  The bytes of a line stay
    in the buffer until its line feed is found: when they fill it, that is
    when the line has [MaxScanTokenSize] bytes and no line feed yet, [Scan]
    sets [ErrTooLong] and returns [false], so that this line and all that
    follows are not delivered. *)
Fixpoint scanLines (data : string) (line : string) : list string :=
  match data with
  | EmptyString =>
      match line with
      | EmptyString => []
      | _ => [dropCR line]
      end
  | String c r =>
      if Ascii.eqb c LF then dropCR line :: scanLines r EmptyString
      else if MaxScanTokenSize <=? Z.of_nat (String.length line) + 1 then []
      else scanLines r (line +:+ String c EmptyString)
  end.

(** [readHistory]: the loop ends when [s.Scan()] returns [false], at the end
    of the file or at a line too long; [s.Err()] is not looked at. *)
Definition readHistory (h : historyFile) : History :=
  {| hfile := h;
     items := foldl (fun m text => <[text := true]> m) ∅
                (scanLines (file h) EmptyString) |}.

Definition NewHistory (openErr : option error) (contents : string)
  : History + error :=
  match newHistoryFile openErr contents with
  | inr err => inr (Errorf "failed to open History file %v" [argError err])
  | inl h => inl (readHistory h)
  end.

(** The running hash of [md5.New()]: the bytes written so far. *)
Definition md5New : list Z := [].
Definition WriteString (h : list Z) (s : string) : list Z :=
  h ++ bytes_of_string s.
Definition Sum (h : list Z) : list Z := MD5.sum h.

Definition md5Download (title : string) (ft : FileType) : string :=
  let h := md5New in
  let h := WriteString h title in
  let h := WriteString h ft in
  string_of_bytes (Sum h).

Definition containsDownload (h : History) (title : string) (ft : FileType)
  : bool :=
  let hash := md5Download title ft in
  match items h !! hash with
  | Some _ => true
  | None => false
  end.

Definition addItem (h : History) (title : string) (ft : FileType) : History :=
  let hash := md5Download title ft in
  {| hfile := hfile h; items := <[hash := true]> (items h) |}.

(** [for key := range h.items]: Go leaves the order of the keys open.  A
    [rangeOrder] is one such order for every map. *)
Record rangeOrder : Type := {
  keysOf :> gmap string bool -> list string;
  keysOf_perm : forall m, keysOf m ≡ₚ (map_to_list m).*1
}.

Definition defaultOrder : rangeOrder :=
  {| keysOf := fun m => (map_to_list m).*1;
     keysOf_perm := fun m => reflexivity _ |}.

(** [fmt.Sprintf("%s\n", key)] *)
Definition historyLine (key : string) : string := key +:+ String LF EmptyString.

(** [writeOut]: every key and a line feed, through a buffered writer that is
    flushed when the function returns; the bytes are appended to the file. *)
Definition writeOut (order : rangeOrder) (h : History) : History :=
  {| hfile := {| file := foldl (fun f key => f +:+ historyLine key)
                           (file (hfile h)) (order (items h)) |};
     items := items h |}.

(** ** internal/download.go: options *)

Record User : Type := { identity : string; username : string }.

Inductive Context : Type := Background.

(** [time.Duration]: nanoseconds in an [int64]. *)
Definition Minute : Z := 60000000000.
Definition wrap64 (x : Z) : Z := (x + 2 ^ 63) mod 2 ^ 64 - 2 ^ 63.
Definition wrap8 (x : Z) : Z := (x + 128) mod 256 - 128.

Record Downloader : Type := {
  user : User;
  dirPath : string;
  context : option Context;
  timeout : Z;
  headless : bool;
  filetype : FileType
}.

Definition NewUser (username identity : string) : User :=
  {| identity := identity; username := username |}.

Definition NewDownloader (user : User) (dirPath : string)
    (options : list (Downloader -> Downloader)) : Downloader + error :=
  if String.eqb dirPath "" then inr (Errorf "Directory path cannot be empty" [])
  else
    let dl := {| user := user; dirPath := dirPath; context := None;
                 timeout := 0; headless := false; filetype := "" |} in
    inl (foldl (fun d f => f d) dl options).

Definition WithContext (ctx : Context) (d : Downloader) : Downloader :=
  {| user := user d; dirPath := dirPath d; context := Some ctx;
     timeout := timeout d; headless := headless d; filetype := filetype d |}.

Definition WithTimeout (t : Z) (d : Downloader) : Downloader :=
  {| user := user d; dirPath := dirPath d; context := context d;
     timeout := t; headless := headless d; filetype := filetype d |}.

Definition WithHeadless (d : Downloader) : Downloader :=
  {| user := user d; dirPath := dirPath d; context := context d;
     timeout := timeout d; headless := true; filetype := filetype d |}.

Definition WithFiletype (ft : FileType) (d : Downloader) : Downloader :=
  {| user := user d; dirPath := dirPath d; context := context d;
     timeout := timeout d; headless := headless d; filetype := ft |}.

Definition DefaultDownloader (user : User) (dirPath : string)
  : Downloader + error :=
  NewDownloader user dirPath
    [WithContext Background; WithTimeout (3 * Minute); WithFiletype MP3_320].

(** ** internal/download.go: jobs and the retry rule *)

(** [CollectionEntry] of internal/bandcamp.go; the URL as its string. *)
Record CollectionEntry : Type := { url : string; title : string }.

Record downloadJob : Type := {
  Entry : CollectionEntry;
  err : option error;
  Success : bool;
  DownloadDir : string;
  jobFiletype : FileType;
  jobTimeout : Z;
  retries : Z
}.

Definition failed (j : downloadJob) (e : error) : downloadJob :=
  {| Entry := Entry j; err := Some e; Success := false;
     DownloadDir := DownloadDir j; jobFiletype := jobFiletype j;
     jobTimeout := jobTimeout j; retries := retries j |}.

Definition succeeded (j : downloadJob) : downloadJob :=
  {| Entry := Entry j; err := None; Success := true;
     DownloadDir := DownloadDir j; jobFiletype := jobFiletype j;
     jobTimeout := jobTimeout j; retries := retries j |}.

Definition MAX_RETRIES : Z := 5.

Definition errMaxRetries : error := Errorf "Reached maximum allowed retries" [].

(** [timedOut]: the job after the call and the error returned.  [retries]
    is an [int8] and [timeout] an [int64]; both wrap around. *)
Definition timedOut (j : downloadJob) : downloadJob * option error :=
  if retries j =? MAX_RETRIES then (j, Some errMaxRetries)
  else
    ({| Entry := Entry j;
        err := Some (Errorf "Timed out after %f minutes"
                       [argMinutes (jobTimeout j)]);
        Success := false;
        DownloadDir := DownloadDir j; jobFiletype := jobFiletype j;
        jobTimeout := wrap64 (jobTimeout j + 2 * Minute);
        retries := wrap8 (retries j + 1) |}, None).

(** What the page driver answers to the four calls of [processJob]. *)
Record pageReplies : Type := {
  NewCollectionEntryPage : option error;
  Goto : option error;
  SelectFileType : option error;
  DownloadFile : option error
}.

Definition processJob (job : downloadJob) (page : pageReplies) : option error :=
  match NewCollectionEntryPage page with
  | Some e => Some (Errorf "Could not create page: %w" [argError e])
  | None =>
  match Goto page with
  | Some e =>
      Some (Errorf "Could not goto %s: %w" [argString (url (Entry job)); argError e])
  | None =>
  match SelectFileType page with
  | Some e =>
      Some (Errorf "Could not select file type %s: %w"
              [argString (jobFiletype job); argError e])
  | None =>
  match DownloadFile page with
  | Some e => Some (Errorf "Could not download file: %w" [argError e])
  | None => None
  end end end end.

(** The [select] of [worker]: either the context of the attempt is done
    first (its deadline has passed), or the result of [processJob] arrives
    on [jobErr] first. *)
Inductive selectCase : Type :=
| ctxDone
| jobErrRecv (e : option error).

(** What one turn of the loop of [worker] does with its job. *)
Inductive workerSend : Type :=
| toResults (j : downloadJob)
| toJobs (j : downloadJob).

Definition workerSelect (job : downloadJob) (c : selectCase) : workerSend :=
  match c with
  | ctxDone =>
      let '(job, e) := timedOut job in
      match e with
      | Some e => toResults (failed job e)
      | None => toJobs job
      end
  | jobErrRecv (Some e) => toResults (failed job e)
  | jobErrRecv None => toResults (succeeded job)
  end.

(** One job followed through the queue: [cs] gives the [select] case of
    its successive attempts.  The result is the job as each attempt received
    it, and the job sent to [results], if any attempt so far sent one. *)
Fixpoint attempts (cs : list selectCase) (job : downloadJob)
  : list downloadJob * option downloadJob :=
  match cs with
  | [] => ([], None)
  | c :: cs' =>
      match workerSelect job c with
      | toResults r => ([job], Some r)
      | toJobs job' =>
          let '(l, r) := attempts cs' job' in (job :: l, r)
      end
  end.

(** ** internal/download.go: one pagination step, step by step

    The body of the loop of [Download] runs next to three [worker]
    goroutines; they share the two channels.  A [batch] is the state of one
    such step; [trace] lists what has happened, oldest first. *)

Inductive event : Type :=
| OnStart (name : string)
| OnSuccess (name : string)
| OnFailure (name : string)
| jobsSend (j : downloadJob)             (* Download: jobs <- downloadJob{...} *)
| jobsRecv (w : nat) (j : downloadJob)   (* worker w: job := range jobs *)
| jobsResend (w : nat) (j : downloadJob) (* worker w: jobs <- job *)
| resultsSend (w : nat) (j : downloadJob)(* worker w: results <- job *)
| resultsRecv (j : downloadJob)          (* Download: job := <-results *)
| historyWriteOut
| ScrollPage.

(** Where [Download] stands in the body of its loop. *)
Inductive orchestratorPc : Type :=
| enqueuing (todo : list CollectionEntry)  (* for _, entry := range notDownloaded *)
| draining (k : nat)                       (* for range notDownloaded, k turns left *)
| scrolled.                                (* after page.ScrollPage() *)

Record batch : Type := {
  pc : orchestratorPc;
  notDownloaded : list CollectionEntry;
  jobs : list downloadJob;               (* chan downloadJob, oldest first *)
  results : list downloadJob;
  workers : list (option downloadJob);   (* the job each worker holds *)
  history : History;
  trace : list event
}.

(** Both channels are made with capacity [len(notDownloaded)]. *)
Definition capacity (b : batch) : nat := length (notDownloaded b).

Definition newJob (d : Downloader) (entry : CollectionEntry) : downloadJob :=
  {| Entry := entry; err := None; Success := false;
     DownloadDir := dirPath d; jobFiletype := filetype d;
     jobTimeout := 4 * Minute; retries := 0 |}.

Definition startBatch (h : History) (entries : list CollectionEntry) : batch :=
  {| pc := enqueuing entries; notDownloaded := entries;
     jobs := []; results := []; workers := [None; None; None];
     history := h; trace := [] |}.

Inductive action : Type :=
| orchestrator
| workerRecv (w : nat)
| workerSelects (w : nat) (c : selectCase).

Definition orchestratorStep (d : Downloader) (order : rangeOrder) (b : batch)
  : option batch :=
  match pc b with
  | enqueuing (entry :: rest) =>
      if decide (length (jobs b) < capacity b)%nat then
        let job := newJob d entry in
        Some {| pc := enqueuing rest; notDownloaded := notDownloaded b;
                jobs := jobs b ++ [job]; results := results b;
                workers := workers b; history := history b;
                trace := trace b ++ [OnStart (title entry); jobsSend job] |}
      else None
  | enqueuing [] =>
      Some {| pc := draining (length (notDownloaded b));
              notDownloaded := notDownloaded b;
              jobs := jobs b; results := results b;
              workers := workers b; history := history b;
              trace := trace b |}
  | draining (S k) =>
      match results b with
      | job :: rest =>
          if Success job then
            Some {| pc := draining k; notDownloaded := notDownloaded b;
                    jobs := jobs b; results := rest; workers := workers b;
                    history := addItem (history b) (title (Entry job)) (filetype d);
                    trace := trace b ++ [resultsRecv job;
                                         OnSuccess (title (Entry job))] |}
          else
            Some {| pc := draining k; notDownloaded := notDownloaded b;
                    jobs := jobs b; results := rest; workers := workers b;
                    history := history b;
                    trace := trace b ++ [resultsRecv job;
                                         OnFailure (title (Entry job))] |}
      | [] => None
      end
  | draining O =>
      Some {| pc := scrolled; notDownloaded := notDownloaded b;
              jobs := jobs b; results := results b; workers := workers b;
              history := writeOut order (history b);
              trace := trace b ++ [historyWriteOut; ScrollPage] |}
  | scrolled => None
  end.

Definition workerRecvStep (w : nat) (b : batch) : option batch :=
  match workers b !! w, jobs b with
  | Some None, job :: rest =>
      Some {| pc := pc b; notDownloaded := notDownloaded b;
              jobs := rest; results := results b;
              workers := <[w := Some job]> (workers b);
              history := history b;
              trace := trace b ++ [jobsRecv w job] |}
  | _, _ => None
  end.

Definition workerSelectStep (w : nat) (c : selectCase) (b : batch)
  : option batch :=
  match workers b !! w with
  | Some (Some job) =>
      match workerSelect job c with
      | toResults r =>
          if decide (length (results b) < capacity b)%nat then
            Some {| pc := pc b; notDownloaded := notDownloaded b;
                    jobs := jobs b; results := results b ++ [r];
                    workers := <[w := None]> (workers b);
                    history := history b;
                    trace := trace b ++ [resultsSend w r] |}
          else None
      | toJobs job' =>
          if decide (length (jobs b) < capacity b)%nat then
            Some {| pc := pc b; notDownloaded := notDownloaded b;
                    jobs := jobs b ++ [job']; results := results b;
                    workers := <[w := None]> (workers b);
                    history := history b;
                    trace := trace b ++ [jobsResend w job'] |}
          else None
      end
  | _ => None
  end.

(** One step of one of the four goroutines; [None] when it is blocked. *)
Definition step (d : Downloader) (order : rangeOrder) (a : action) (b : batch)
  : option batch :=
  match a with
  | orchestrator => orchestratorStep d order b
  | workerRecv w => workerRecvStep w b
  | workerSelects w c => workerSelectStep w c b
  end.

(** Any interleaving of the goroutines, any [select] case per attempt. *)
Definition steps (d : Downloader) (order : rangeOrder) (b b' : batch) : Prop :=
  exists a, step d order a b = Some b'.

Definition reachable (d : Downloader) (order : rangeOrder) (b0 b : batch) : Prop :=
  rtc (steps d order) b0 b.

(** *** A scheduler, to run a step to its end

    [Download] first, then a free worker that can receive, then the first
    worker that holds a job, whose [select] case is [attempt job]. *)

Fixpoint findIdle (ws : list (option downloadJob)) (w : nat) : option nat :=
  match ws with
  | [] => None
  | None :: _ => Some w
  | Some _ :: r => findIdle r (S w)
  end.

Fixpoint findBusy (ws : list (option downloadJob)) (w : nat)
  : option (nat * downloadJob) :=
  match ws with
  | [] => None
  | Some job :: _ => Some (w, job)
  | None :: r => findBusy r (S w)
  end.

Definition schedule (attempt : downloadJob -> selectCase) (b : batch)
  : option action :=
  match pc b, results b with
  | enqueuing _, _ | draining O, _ | draining (S _), _ :: _ => Some orchestrator
  | scrolled, _ => None
  | draining (S _), [] =>
      match findIdle (workers b) O, jobs b with
      | Some w, _ :: _ => Some (workerRecv w)
      | _, _ =>
          match findBusy (workers b) O with
          | Some (w, job) => Some (workerSelects w (attempt job))
          | None => None
          end
      end
  end.

Fixpoint runBatch (d : Downloader) (order : rangeOrder)
    (attempt : downloadJob -> selectCase) (fuel : nat) (b : batch) : batch :=
  match fuel with
  | O => b
  | S fuel' =>
      match schedule attempt b with
      | Some a =>
          match step d order a b with
          | Some b' => runBatch d order attempt fuel' b'
          | None => b
          end
      | None => b
      end
  end.

(** Enough turns for every job of a step: it is sent once, received and
    selected at most six times each, and its result received once. *)
Definition batchFuel (n : nat) : nat := 14 * n + 2.

(** ** internal/download.go: [Download]

    Everything [Download] gets from outside the package: the file system,
    Playwright and the page objects of the collection page.  [AlbumCount],
    [ScrollTimes], [Entries] and [ScrollPage] are methods of the collection
    page that [Download] calls; they are taken as given here. *)

Inductive mkdirReply : Type :=
| mkdirOk
| mkdirExists              (* an error for which os.IsExist holds *)
| mkdirFails (e : error).

Record World : Type := {
  Mkdir_outDir : mkdirReply;
  Mkdir_bcdlDir : mkdirReply;
  OpenFile : option error;
  downloaded : string;              (* the bytes of <outDir>/.bcdl/downloaded *)
  playwrightInstall : option error;
  playwrightRun : option error;
  chromiumLaunch : option error;
  NewAuthorizedBandcampContext : option error;
  NewCollectionPage : option error;
  collectionGoto : option error;
  pageFilter : string -> option error;
  AlbumCount : Z * option error;
  ScrollTimes : Z * option error;
  (** [page.Entries(filter)] after [i] calls of [page.ScrollPage()] *)
  Entries : nat -> string -> list CollectionEntry * option error;
  (** the page of an album, and whether the deadline of an attempt passes
      before [processJob] has returned *)
  entryPage : downloadJob -> pageReplies;
  deadlineFirst : downloadJob -> bool;
  browserClose : option error;
  pwStop : option error;
  rangeItems : rangeOrder
}.

(** [DownloadOpts]: the calls of the three callbacks are events of the
    trace. *)
Record DownloadOpts : Type := { Filter : string }.

Definition selectOf (w : World) (job : downloadJob) : selectCase :=
  if deadlineFirst w job then ctxDone
  else jobErrRecv (processJob job (entryPage w job)).

(** [err != nil && !os.IsExist(err)] *)
Definition mkdirError (r : mkdirReply) : option error :=
  match r with
  | mkdirFails e => Some e
  | _ => None
  end.

Definition errCollection (e : error) : error :=
  Errorf ("Could not get your collection. Err: %v" +:+ String LF
            "Check that you have the correct identity cookie value")
    [argError e].

(** [Download], lines 292 to 304. *)
Definition skipDownloaded (h : History) (ft : FileType)
    (entries : list CollectionEntry) : list CollectionEntry :=
  List.filter (fun entry => negb (containsDownload h (title entry) ft)) entries.

(** The loop [for i := range scrollTimes], with [n] turns left. *)
Fixpoint scrollLoop (w : World) (d : Downloader) (opts : DownloadOpts)
    (n i : nat) (h : History) (tr : list event)
  : option error * History * list event :=
  match n with
  | O => (None, h, tr)
  | S n' =>
      let '(entries, e) := Entries w i (Filter opts) in
      match e with
      | Some e => (Some (errCollection e), h, tr)
      | None =>
          let entries := skipDownloaded h (filetype d) entries in
          let b := runBatch d (rangeItems w) (selectOf w)
                     (batchFuel (length entries)) (startBatch h entries) in
          scrollLoop w d opts n' (S i) (history b) (tr ++ trace b)
      end
  end.

Record outcome : Type := {
  returned : option error;   (* the error [Download] returns *)
  disk : string;             (* the history file afterwards *)
  events : list event
}.

Definition abort (w : World) (e : error) : outcome :=
  {| returned := Some e; disk := downloaded w; events := [] |}.

Definition Download (d : Downloader) (opts : DownloadOpts) (w : World)
  : outcome :=
  match mkdirError (Mkdir_outDir w) with
  | Some e => abort w (Errorf "Could not create output dir %v" [argError e])
  | None =>
  match mkdirError (Mkdir_bcdlDir w) with
  | Some e => abort w (Errorf "Could not create output dir %v" [argError e])
  | None =>
  match NewHistory (OpenFile w) (downloaded w) with
  | inr e => abort w (Errorf "Failure to get history file %v" [argError e])
  | inl history =>
  match playwrightInstall w with
  | Some e => abort w (Errorf "Could not install playwright: %v" [argError e])
  | None =>
  match playwrightRun w with
  | Some e => abort w (Errorf "could not start playwright: %v" [argError e])
  | None =>
  match chromiumLaunch w with
  | Some e => abort w (Errorf "could not launch browser: %v" [argError e])
  | None =>
  match NewAuthorizedBandcampContext w with
  | Some e => abort w (Errorf "could not create context: %v" [argError e])
  | None =>
  match NewCollectionPage w with
  | Some e => abort w (Errorf "could not create page: %v" [argError e])
  | None =>
  match collectionGoto w with
  | Some e => abort w (Errorf "could not goto: %v" [argError e])
  | None =>
      let err := pageFilter w (Filter opts) in
      let '(count, err) := AlbumCount w in
      let '(scrollTimes, err) := ScrollTimes w in
      let '(err, history, tr) :=
        scrollLoop w d opts (Z.to_nat scrollTimes) O history [] in
      match err with
      | Some e =>
          {| returned := Some e; disk := file (hfile history); events := tr |}
      | None =>
          let history := writeOut (rangeItems w) history in
          let out (e : option error) :=
            {| returned := e; disk := file (hfile history);
               events := tr ++ [historyWriteOut] |} in
          match browserClose w with
          | Some e => out (Some (Errorf "could not close browser: %v" [argError e]))
          | None =>
          match pwStop w with
          | Some e => out (Some (Errorf "could not stop Playwright: %v" [argError e]))
          | None => out None
          end end
      end
  end end end end end end end end end.

(** ** Sample inputs *)

Definition exampleDownloader : Downloader :=
  {| user := NewUser "fan" "cookie"; dirPath := "music"; context := Some Background;
     timeout := 3 * Minute; headless := false; filetype := MP3_320 |}.

Definition exampleEntry (name : string) : CollectionEntry :=
  {| url := "https://bandcamp.com/download?item=" +:+ name; title := name |}.

Definition selectorNotFound : pageReplies :=
  {| NewCollectionEntryPage := None; Goto := None;
     SelectFileType := Some (driverError "selector not found");
     DownloadFile := None |}.


(** ** Keys that survive a line of the history file *)

Fixpoint hasLF (s : string) : bool :=
  match s with
  | EmptyString => false
  | String c r => Ascii.eqb c LF || hasLF r
  end.

Fixpoint endsWith (a : ascii) (s : string) : bool :=
  match s with
  | EmptyString => false
  | String c EmptyString => Ascii.eqb c a
  | String _ r => endsWith a r
  end.

(** A key that [writeOut] and [readHistory] carry over unchanged: no line
    feed in it and no carriage return at its end. *)
Definition lineSafe (key : string) : bool :=
  negb (hasLF key) && negb (endsWith CR key).

(** A file whose last line, if there is one, is ended by a line feed. *)
Definition terminated (f : string) : bool :=
  match f with
  | EmptyString => true
  | _ => endsWith LF f
  end.

(** A file in which no line reaches [MaxScanTokenSize] bytes before its
    line feed or the end of the file; [n] is the number of bytes of the
    current line read so far. *)
Fixpoint shortLines (data : string) (n : Z) : bool :=
  match data with
  | EmptyString => true
  | String c r =>
      if Ascii.eqb c LF then shortLines r 0
      else if MaxScanTokenSize <=? n + 1 then false
      else shortLines r (n + 1)
  end.

(** The lines [writeOut] appends for the keys [ks]. *)
Definition historyLines (ks : list string) : string :=
  foldr (fun key f => historyLine key +:+ f) EmptyString ks.


(** ** Reading a trace, and what holds of every state of a step *)

(** The jobs [Download] has sent to [jobs]. *)
Fixpoint sent (tr : list event) : list downloadJob :=
  match tr with
  | [] => []
  | jobsSend j :: r => j :: sent r
  | _ :: r => sent r
  end.

(** The results the workers have sent to [results]. *)
Fixpoint emitted (tr : list event) : list downloadJob :=
  match tr with
  | [] => []
  | resultsSend _ j :: r => j :: emitted r
  | _ :: r => emitted r
  end.

(** The results [Download] has received from [results]. *)
Fixpoint received (tr : list event) : list downloadJob :=
  match tr with
  | [] => []
  | resultsRecv j :: r => j :: received r
  | _ :: r => received r
  end.

(** The calls of [OnSuccess] and [OnFailure]. *)
Fixpoint callbacks (tr : list event) : list event :=
  match tr with
  | [] => []
  | OnSuccess name :: r => OnSuccess name :: callbacks r
  | OnFailure name :: r => OnFailure name :: callbacks r
  | _ :: r => callbacks r
  end.

(** The callback [Download] calls for a result. *)
Definition callbackOf (job : downloadJob) : event :=
  if Success job then OnSuccess (title (Entry job))
  else OnFailure (title (Entry job)).

(** The names [OnStart] was called with. *)
Fixpoint started (tr : list event) : list string :=
  match tr with
  | [] => []
  | OnStart name :: r => name :: started r
  | _ :: r => started r
  end.

(** The number of calls of [page.ScrollPage()]. *)
Fixpoint scrolls (tr : list event) : nat :=
  match tr with
  | [] => O
  | ScrollPage :: r => S (scrolls r)
  | _ :: r => scrolls r
  end.

(** The attempts: the jobs the workers have received from [jobs]. *)
Fixpoint attempted (tr : list event) : list downloadJob :=
  match tr with
  | [] => []
  | jobsRecv _ j :: r => j :: attempted r
  | _ :: r => attempted r
  end.

(** The jobs the workers hold. *)
Definition inflight (ws : list (option downloadJob)) : list downloadJob :=
  omap id ws.

(** A run of the four goroutines under a schedule: the actions are taken in
    turn, and an action that is blocked leaves the state as it is. *)
Definition exec (d : Downloader) (order : rangeOrder) (acts : list action)
    (b : batch) : batch :=
  foldl (fun b a => default b (step d order a b)) b acts.

(** The successes among [rs], added to the items [m] as [Download] does
    when it receives them. *)
Definition recordAll (ft : FileType) (m : gmap string bool)
    (rs : list downloadJob) : gmap string bool :=
  foldl (fun m job =>
           if Success job then <[md5Download (title (Entry job)) ft := true]> m
           else m) m rs.

(** A result is final: a success without error, or a failure with one. *)
Definition terminal (r : downloadJob) : Prop :=
  (Success r = true /\ err r = None) \/ (Success r = false /\ is_Some (err r)).

Record batchInv (d : Downloader) (order : rangeOrder) (h0 : History)
    (es : list CollectionEntry) (b : batch) : Prop := {
  inv_entries : notDownloaded b = es;
  inv_workers : length (workers b) = 3%nat;
  inv_pc :
    match pc b with
    | enqueuing todo =>
        map Entry (sent (trace b)) ++ todo = es /\ received (trace b) = []
    | draining k =>
        map Entry (sent (trace b)) = es
        /\ (length (received (trace b)) + k = length es)%nat
    | scrolled =>
        map Entry (sent (trace b)) = es
        /\ length (received (trace b)) = length es
    end;
  inv_conserve :
    map Entry (jobs b ++ inflight (workers b) ++ emitted (trace b))
    ≡ₚ map Entry (sent (trace b));
  inv_fifo : emitted (trace b) = received (trace b) ++ results b;
  inv_retries :
    Forall (fun j => 0 <= retries j <= MAX_RETRIES)
      (jobs b ++ inflight (workers b));
  inv_terminal : Forall terminal (emitted (trace b));
  inv_fresh : Forall (fun j => j = newJob d (Entry j)) (sent (trace b));
  inv_started :
    started (trace b) = map (fun j => title (Entry j)) (sent (trace b));
  inv_callbacks : callbacks (trace b) = map callbackOf (received (trace b));
  inv_items :
    items (history b) = recordAll (filetype d) (items h0) (received (trace b));
  inv_file :
    match pc b with
    | scrolled =>
        file (hfile (history b))
        = file (hfile h0) +:+ historyLines (order (items (history b)))
    | _ => hfile (history b) = hfile h0
    end;
  inv_scroll :
    forall tr1 tr2, trace b = tr1 ++ ScrollPage :: tr2 ->
      pc b = scrolled /\ tr2 = []
      /\ length (received tr1) = length es /\ map Entry (sent tr1) = es;
  inv_end :
    pc b = scrolled ->
    exists tr1, trace b = tr1 ++ [historyWriteOut; ScrollPage]
}.

(** Turns still to come, at most: the variant of a step. *)
Definition jobWeight (j : downloadJob) : nat :=
  (2 * Z.to_nat (MAX_RETRIES + 1 - retries j))%nat.

Definition turnsLeft (b : batch) : nat :=
  (match pc b with
   | enqueuing todo => 13 * length todo + length (notDownloaded b) + 2
   | draining k => k + 1
   | scrolled => 0
   end
   + sum_list_with jobWeight (jobs b)
   + sum_list_with (fun j => jobWeight j - 1) (inflight (workers b)))%nat.


(** ** Worlds that differ in one respect *)

(** [w] with other album pages and other deadlines. *)
Definition withAttempts (w : World) (page : downloadJob -> pageReplies)
    (deadline : downloadJob -> bool) : World :=
  {| Mkdir_outDir := Mkdir_outDir w; Mkdir_bcdlDir := Mkdir_bcdlDir w;
     OpenFile := OpenFile w; downloaded := downloaded w;
     playwrightInstall := playwrightInstall w; playwrightRun := playwrightRun w;
     chromiumLaunch := chromiumLaunch w;
     NewAuthorizedBandcampContext := NewAuthorizedBandcampContext w;
     NewCollectionPage := NewCollectionPage w; collectionGoto := collectionGoto w;
     pageFilter := pageFilter w; AlbumCount := AlbumCount w;
     ScrollTimes := ScrollTimes w; Entries := Entries w;
     entryPage := page; deadlineFirst := deadline;
     browserClose := browserClose w; pwStop := pwStop w;
     rangeItems := rangeItems w |}.

(** [w] with another history file. *)
Definition withDisk (w : World) (contents : string) : World :=
  {| Mkdir_outDir := Mkdir_outDir w; Mkdir_bcdlDir := Mkdir_bcdlDir w;
     OpenFile := OpenFile w; downloaded := contents;
     playwrightInstall := playwrightInstall w; playwrightRun := playwrightRun w;
     chromiumLaunch := chromiumLaunch w;
     NewAuthorizedBandcampContext := NewAuthorizedBandcampContext w;
     NewCollectionPage := NewCollectionPage w; collectionGoto := collectionGoto w;
     pageFilter := pageFilter w; AlbumCount := AlbumCount w;
     ScrollTimes := ScrollTimes w; Entries := Entries w;
     entryPage := entryPage w; deadlineFirst := deadlineFirst w;
     browserClose := browserClose w; pwStop := pwStop w;
     rangeItems := rangeItems w |}.

(** [w] with other errors from [page.filter], [page.AlbumCount] and
    [page.ScrollTimes]. *)
Definition withListingErrors (w : World) (filterErr : string -> option error)
    (countErr scrollErr : option error) : World :=
  {| Mkdir_outDir := Mkdir_outDir w; Mkdir_bcdlDir := Mkdir_bcdlDir w;
     OpenFile := OpenFile w; downloaded := downloaded w;
     playwrightInstall := playwrightInstall w; playwrightRun := playwrightRun w;
     chromiumLaunch := chromiumLaunch w;
     NewAuthorizedBandcampContext := NewAuthorizedBandcampContext w;
     NewCollectionPage := NewCollectionPage w; collectionGoto := collectionGoto w;
     pageFilter := filterErr; AlbumCount := ((AlbumCount w).1, countErr);
     ScrollTimes := ((ScrollTimes w).1, scrollErr); Entries := Entries w;
     entryPage := entryPage w; deadlineFirst := deadlineFirst w;
     browserClose := browserClose w; pwStop := pwStop w;
     rangeItems := rangeItems w |}.


Fixpoint turnsDone (w : World) (opts : DownloadOpts) (n i : nat) : nat :=
  match n with
  | O => O
  | S n' =>
      match (Entries w i (Filter opts)).2 with
      | Some e => O
      | None => S (turnsDone w opts n' (S i))
      end
  end.


(** A key that fits a line of the history file. *)
Definition fitsLine (k : string) : Prop :=
  hasLF k = false /\ Z.of_nat (String.length k) < MaxScanTokenSize.

(** A history whose file ends its last line and has no line of
    [MaxScanTokenSize] bytes, and whose keys have no line feed and are
    shorter than [MaxScanTokenSize]; and one that, moreover, has every key
    on a line of its file, unless the key ends in a carriage return. *)
Definition wellFormed (h : History) : Prop :=
  terminated (file (hfile h)) = true
  /\ shortLines (file (hfile h)) 0 = true
  /\ (forall k, is_Some (items h !! k) ->
        hasLF k = false /\ Z.of_nat (String.length k) < MaxScanTokenSize).

Definition synced (h : History) : Prop :=
  wellFormed h
  /\ (forall k, is_Some (items h !! k) -> lineSafe k = true ->
        k ∈ scanLines (file (hfile h)) EmptyString).


(** The error with which [Download] returns before it reaches the listing:
    the directories, the history file, Playwright and the collection page. *)
Definition setupError (w : World) : option error :=
  match mkdirError (Mkdir_outDir w) with
  | Some e => Some (Errorf "Could not create output dir %v" [argError e])
  | None =>
  match mkdirError (Mkdir_bcdlDir w) with
  | Some e => Some (Errorf "Could not create output dir %v" [argError e])
  | None =>
  match OpenFile w with
  | Some e =>
      Some (Errorf "Failure to get history file %v"
              [argError (Errorf "failed to open History file %v" [argError e])])
  | None =>
  match playwrightInstall w with
  | Some e => Some (Errorf "Could not install playwright: %v" [argError e])
  | None =>
  match playwrightRun w with
  | Some e => Some (Errorf "could not start playwright: %v" [argError e])
  | None =>
  match chromiumLaunch w with
  | Some e => Some (Errorf "could not launch browser: %v" [argError e])
  | None =>
  match NewAuthorizedBandcampContext w with
  | Some e => Some (Errorf "could not create context: %v" [argError e])
  | None =>
  match NewCollectionPage w with
  | Some e => Some (Errorf "could not create page: %v" [argError e])
  | None =>
  match collectionGoto w with
  | Some e => Some (Errorf "could not goto: %v" [argError e])
  | None => None
  end end end end end end end end end.


Definition allFine : pageReplies :=
  {| NewCollectionEntryPage := None; Goto := None;
     SelectFileType := None; DownloadFile := None |}.

(** The album [name] lacks the format selector; the other pages are fine. *)
Definition failsFor (name : string) (job : downloadJob) : pageReplies :=
  if String.eqb (title (Entry job)) name then selectorNotFound else allFine.

(** A world where everything outside the album pages works: a new history
    file, one pagination step, the same entries at every listing. *)
Definition exampleWorld (entries : list CollectionEntry)
    (page : downloadJob -> pageReplies) : World :=
  {| Mkdir_outDir := mkdirOk; Mkdir_bcdlDir := mkdirOk;
     OpenFile := None; downloaded := "";
     playwrightInstall := None; playwrightRun := None; chromiumLaunch := None;
     NewAuthorizedBandcampContext := None; NewCollectionPage := None;
     collectionGoto := None;
     pageFilter := fun _ => None;
     AlbumCount := (Z.of_nat (length entries), None);
     ScrollTimes := (1, None);
     Entries := fun _ _ => (entries, None);
     entryPage := page; deadlineFirst := fun _ => false;
     browserClose := None; pwStop := None;
     rangeItems := defaultOrder |}.

Definition exampleOpts : DownloadOpts := {| Filter := "" |}.

(** A schedule for a step with two entries: the second worker receives the
    first job before the second job is sent, its attempt times out and the
    job is received again by the third worker, where the page fails. *)
Definition exampleSchedule : list action :=
  [orchestrator; workerRecv 1; orchestrator; workerRecv 0;
   workerSelects 1 ctxDone; orchestrator;
   workerSelects 0 (jobErrRecv None); workerRecv 2; orchestrator;
   workerSelects 2 (jobErrRecv (Some (driverError "selector not found")));
   orchestrator; orchestrator].


(** ** Jobs of one entry whose attempts all time out *)

Global Instance CollectionEntry_eq_dec : EqDecision CollectionEntry.
Proof. solve_decision. Defined.

(** The number of jobs of the entry [e] in [l]. *)
Definition countFor (e : CollectionEntry) (l : list downloadJob) : nat :=
  length (filter (fun j => Entry j = e) l).

(** Under the schedule [acts] from [b] on, every attempt at a job of the
    entry [e] ends by its deadline. *)
Fixpoint allTimeOut (d : Downloader) (order : rangeOrder) (e : CollectionEntry)
    (acts : list action) (b : batch) : Prop :=
  match acts with
  | [] => True
  | a :: rest =>
      match a with
      | workerSelects w c =>
          forall job, workers b !! w = Some (Some job) -> Entry job = e ->
                      c = ctxDone
      | _ => True
      end
      /\ allTimeOut d order e rest (default b (step d order a b))
  end.

(** The attempts a job of [e] still has before it, in the queue and with a
    worker. *)
Definition queuedFor (e : CollectionEntry) (j : downloadJob) : nat :=
  if decide (Entry j = e) then Z.to_nat (MAX_RETRIES + 1 - retries j) else O.

Definition heldFor (e : CollectionEntry) (j : downloadJob) : nat :=
  if decide (Entry j = e) then Z.to_nat (MAX_RETRIES - retries j) else O.

Record timeoutInv (e : CollectionEntry) (b : batch) : Prop := {
  ti_waiting :
    Forall (fun j => jobTimeout j = 4 * Minute + retries j * (2 * Minute))
      (jobs b ++ inflight (workers b));
  ti_attempted :
    Forall (fun j => 0 <= retries j <= MAX_RETRIES
                     /\ jobTimeout j = 4 * Minute + retries j * (2 * Minute))
      (attempted (trace b));
  ti_emitted :
    Forall (fun r => Entry r = e ->
                     Success r = false /\ err r = Some errMaxRetries
                     /\ retries r = MAX_RETRIES /\ jobTimeout r = 14 * Minute)
      (emitted (trace b));
  ti_count :
    (countFor e (attempted (trace b))
     + sum_list_with (queuedFor e) (jobs b)
     + sum_list_with (heldFor e) (inflight (workers b))
     = 6 * countFor e (sent (trace b)))%nat
}.


(** ** More of the code: options, [main], the file type flag, the calls of
    [processJob] *)

(** The options internal/download.go offers to [NewDownloader]. *)
Definition builtinOption (f : Downloader -> Downloader) : Prop :=
  (exists ctx, f = WithContext ctx) \/ (exists t, f = WithTimeout t)
  \/ f = WithHeadless \/ (exists ft, f = WithFiletype ft).

(** internal/tui: what the user has entered ([tui.Outputs]). *)
Module tui.
Record Outputs : Type := {
  Username : string;
  Identity : string;
  Directory : string;
  FileType : string;
  Filter : string
}.
End tui.

(** main.go.  [tuiRun] is what [tui.Run()] returns.  [log.Fatalf] prints
    and exits with status 1; [fatal] keeps its format and its argument. *)
Record mainRun : Type := {
  fatal : option (string * option error);
  exitStatus : Z;
  ran : option outcome          (* the call of [dl.Download(opts)], if made *)
}.

Definition main (tuiRun : tui.Outputs * option error) (w : World) : mainRun :=
  let '(selected, err) := tuiRun in
  match err with
  | Some e =>
      {| fatal := Some ("Halting execution %v", Some e); exitStatus := 1;
         ran := None |}
  | None =>
      let user := NewUser (tui.Username selected) (tui.Identity selected) in
      match DefaultDownloader user (tui.Directory selected) with
      | inr _ =>
          {| fatal := Some ("Directory not set", None); exitStatus := 1;
             ran := None |}
      | inl dl =>
          let dl := WithFiletype (tui.FileType selected) dl in
          let opts := {| Filter := tui.Filter selected |} in
          let o := Download dl opts w in
          match returned o with
          | Some e =>
              {| fatal := Some ("Error completing download %v" +:+ String LF "",
                                Some e);
                 exitStatus := 1; ran := Some o |}
          | None => {| fatal := None; exitStatus := 0; ran := Some o |}
          end
      end
  end.

(** The command-line variant of main.go: [FileTypeFlag], a [flag.Value]. *)
Module FileTypeFlag.

Record t : Type := { value : string }.

(** [%s] of a slice: the elements between brackets, with spaces. *)
Fixpoint joinSpace (l : list string) : string :=
  match l with
  | [] => ""
  | [x] => x
  | x :: r => x +:+ " " +:+ joinSpace r
  end.

Definition formatSlice (l : list string) : string :=
  "[" +:+ joinSpace l +:+ "]".

(** The loop of [Set] over [internal.AllFileTypes]. *)
Fixpoint setLoop (s : string) (l : list string) : option string :=
  match l with
  | [] => None
  | ft :: r => if String.eqb s ft then Some ft else setLoop s r
  end.

Definition Set_ (ftf : t) (s : string) : t * option error :=
  match setLoop s AllFileTypes with
  | Some ft => ({| value := ft |}, None)
  | None =>
      (ftf, Some (Errorf "%s is not in list of valid filetypes %s"
                    [argString s; argString (formatSlice AllFileTypes)]))
  end.

Definition String_ (ftf : t) : string := value ftf.

End FileTypeFlag.

(** The calls [processJob] makes to the driver, in order.  The page is
    closed by a [defer] that is set once the page exists. *)
Inductive driverCall : Type :=
| callNewCollectionEntryPage (entry : CollectionEntry)
| callGoto
| callSelectFileType (ft : string)
| callDownloadFile (outputDir : string) (timeoutMs : Z)
| callClose.

(** [time.Duration.Milliseconds]: integer division, towards zero. *)
Definition Milliseconds (d : Z) : Z := Z.quot d 1000000.

Definition processJobCalls (job : downloadJob) (page : pageReplies)
  : list driverCall * option error :=
  let new := callNewCollectionEntryPage (Entry job) in
  match NewCollectionEntryPage page with
  | Some e => ([new], Some (Errorf "Could not create page: %w" [argError e]))
  | None =>
  match Goto page with
  | Some e =>
      ([new; callGoto; callClose],
       Some (Errorf "Could not goto %s: %w"
               [argString (url (Entry job)); argError e]))
  | None =>
  match SelectFileType page with
  | Some e =>
      ([new; callGoto; callSelectFileType (jobFiletype job); callClose],
       Some (Errorf "Could not select file type %s: %w"
               [argString (jobFiletype job); argError e]))
  | None =>
      let dl := callDownloadFile (DownloadDir job)
                  (Milliseconds (jobTimeout job)) in
      let calls := [new; callGoto; callSelectFileType (jobFiletype job); dl;
                    callClose] in
      match DownloadFile page with
      | Some e =>
          (calls, Some (Errorf "Could not download file: %w" [argError e]))
      | None => (calls, None)
      end
  end end end.

(** ** More of the pool *)

(** The actions of a schedule that are not blocked. *)
Fixpoint moves (d : Downloader) (order : rangeOrder) (acts : list action)
    (b : batch) : nat :=
  match acts with
  | [] => O
  | a :: rest =>
      match step d order a b with
      | Some b' => S (moves d order rest b')
      | None => moves d order rest b
      end
  end.

(** Every job, wherever it is, has the timeout of 4 minutes and 2 minutes
    per retry. *)
Definition paced (j : downloadJob) : Prop :=
  0 <= retries j <= MAX_RETRIES
  /\ jobTimeout j = 4 * Minute + retries j * (2 * Minute).

(** The attempts a job still has before it, in the queue and with a
    worker, at most. *)
Definition queued (j : downloadJob) : nat :=
  Z.to_nat (MAX_RETRIES + 1 - retries j).

Definition held (j : downloadJob) : nat := Z.to_nat (MAX_RETRIES - retries j).

Record attemptInv (b : batch) : Prop := {
  ai_waiting : Forall paced (jobs b ++ inflight (workers b));
  ai_attempted : Forall paced (attempted (trace b));
  ai_emitted : Forall paced (emitted (trace b));
  ai_count : forall e,
    (countFor e (attempted (trace b))
     + sum_list_with (queuedFor e) (jobs b)
     + sum_list_with (heldFor e) (inflight (workers b))
     <= 6 * countFor e (sent (trace b)))%nat;
  ai_total :
    (length (attempted (trace b))
     + sum_list_with queued (jobs b)
     + sum_list_with held (inflight (workers b))
     <= 6 * length (sent (trace b)))%nat
}.

(** ** More of the history and of [Download] *)

(** The history after [addItem] for each of the titles [ts] in turn. *)
Definition recordTitles (h : History) (ft : FileType) (ts : list string)
  : History :=
  foldl (fun h t => addItem h t ft) h ts.

(** [w] with other replies of [browser.Close()] and [pw.Stop()]. *)
Definition withTeardown (w : World) (closeErr stopErr : option error) : World :=
  {| Mkdir_outDir := Mkdir_outDir w; Mkdir_bcdlDir := Mkdir_bcdlDir w;
     OpenFile := OpenFile w; downloaded := downloaded w;
     playwrightInstall := playwrightInstall w; playwrightRun := playwrightRun w;
     chromiumLaunch := chromiumLaunch w;
     NewAuthorizedBandcampContext := NewAuthorizedBandcampContext w;
     NewCollectionPage := NewCollectionPage w; collectionGoto := collectionGoto w;
     pageFilter := pageFilter w; AlbumCount := AlbumCount w;
     ScrollTimes := ScrollTimes w; Entries := Entries w;
     entryPage := entryPage w; deadlineFirst := deadlineFirst w;
     browserClose := closeErr; pwStop := stopErr;
     rangeItems := rangeItems w |}.

(** [w] with another number of pagination steps. *)
Definition withScrollTimes (w : World) (n : Z) : World :=
  {| Mkdir_outDir := Mkdir_outDir w; Mkdir_bcdlDir := Mkdir_bcdlDir w;
     OpenFile := OpenFile w; downloaded := downloaded w;
     playwrightInstall := playwrightInstall w; playwrightRun := playwrightRun w;
     chromiumLaunch := chromiumLaunch w;
     NewAuthorizedBandcampContext := NewAuthorizedBandcampContext w;
     NewCollectionPage := NewCollectionPage w; collectionGoto := collectionGoto w;
     pageFilter := pageFilter w; AlbumCount := AlbumCount w;
     ScrollTimes := (n, (ScrollTimes w).2); Entries := Entries w;
     entryPage := entryPage w; deadlineFirst := deadlineFirst w;
     browserClose := browserClose w; pwStop := pwStop w;
     rangeItems := rangeItems w |}.

(** A line of [MaxScanTokenSize] bytes. *)
Definition longLine : string :=
  string_of_list_ascii (repeat "a"%char (Z.to_nat MaxScanTokenSize)).

(** * Properties *)

(** ** The digest *)

Example md5_sum_empty :
  MD5.sum []
  = [212; 29; 140; 217; 143; 0; 178; 4; 233; 128; 9; 152; 236; 248; 66; 126].
Proof. vm_compute. reflexivity. Qed.

Example md5_sum_abc :
  MD5.sum (bytes_of_string "abc")
  = [144; 1; 80; 152; 60; 210; 79; 176; 214; 150; 63; 125; 40; 225; 127; 114].
Proof. vm_compute. reflexivity. Qed.

Example md5_sum_two_blocks :
  MD5.sum (bytes_of_string
    "12345678901234567890123456789012345678901234567890123456789012345678901234567890")
  = [87; 237; 244; 162; 43; 227; 201; 85; 172; 73; 218; 46; 33; 7; 182; 122].
Proof. vm_compute. reflexivity. Qed.

Lemma bytes_of_string_app (s t : string) :
  bytes_of_string (s +:+ t) = bytes_of_string s ++ bytes_of_string t.
Proof. induction s as [|a s IH]; simpl; [done | by rewrite IH]. Qed.

Lemma bytes_of_string_inj (s t : string) :
  bytes_of_string s = bytes_of_string t -> s = t.
Proof.
  revert t. induction s as [|a s IH]; intros [|b t]; simpl; try done.
  intros [= Hab Hst]. f_equal; [|by apply IH].
  apply N2Z.inj in Hab.
  rewrite <- (ascii_N_embedding a), <- (ascii_N_embedding b). by rewrite Hab.
Qed.

(** The fingerprint is the digest of the title followed by the file type. *)
Lemma md5Download_concat (title : string) (ft : FileType) :
  md5Download title ft
  = string_of_bytes (MD5.sum (bytes_of_string (title +:+ ft))).
Proof.
  unfold md5Download, WriteString, Sum, md5New.
  by rewrite bytes_of_string_app.
Qed.

(** For one title, two file types give two different messages to digest. *)
Lemma md5Download_message_inj (title : string) (ft1 ft2 : FileType) :
  bytes_of_string (title +:+ ft1) = bytes_of_string (title +:+ ft2) ->
  ft1 = ft2.
Proof.
  intros H. apply bytes_of_string_inj in H.
  induction title as [|a s IH]; simpl in H; [done|].
  injection H as H. by apply IH.
Qed.

(** An item that was added is found: equal pairs have equal fingerprints. *)
Lemma containsDownload_addItem (h : History) (title : string) (ft : FileType) :
  containsDownload (addItem h title ft) title ft = true.
Proof.
  unfold containsDownload, addItem; simpl. by rewrite lookup_insert_eq.
Qed.

Lemma containsDownload_addItem_mono (h : History) (t t' : string)
    (ft ft' : FileType) :
  containsDownload h t ft = true ->
  containsDownload (addItem h t' ft') t ft = true.
Proof.
  unfold containsDownload, addItem; simpl. rewrite lookup_insert.
  case_decide; [done|]. by destruct (items h !! _).
Qed.

(** The eight file types give eight fingerprints for the title "X". *)
Example fingerprints_of_X_distinct :
  NoDup (map (md5Download "X") AllFileTypes).
Proof.
  assert (H : bool_decide (NoDup (map (md5Download "X") AllFileTypes)) = true)
    by (vm_compute; reflexivity).
  by apply bool_decide_eq_true in H.
Qed.

Example fingerprint_X_flac_mp3 : md5Download "X" FLAC <> md5Download "X" MP3_320.
Proof.
  assert (H : bool_decide (md5Download "X" FLAC = md5Download "X" MP3_320) = false)
    by (vm_compute; reflexivity).
  by apply bool_decide_eq_false in H.
Qed.

(** ** The retry rule *)

Lemma timedOut_retry (j : downloadJob) :
  retries j <> MAX_RETRIES ->
  exists j', timedOut j = (j', None)
    /\ Entry j' = Entry j
    /\ retries j' = wrap8 (retries j + 1)
    /\ jobTimeout j' = wrap64 (jobTimeout j + 2 * Minute).
Proof.
  intros H. unfold timedOut.
  destruct (Z.eqb_spec (retries j) MAX_RETRIES) as [E|_]; [done|].
  eexists; split; [reflexivity|]. by simpl.
Qed.

Lemma timedOut_limit (j : downloadJob) :
  retries j = MAX_RETRIES -> timedOut j = (j, Some errMaxRetries).
Proof. intros H. unfold timedOut. by rewrite H. Qed.

(** A worker sends a job back to [jobs] only when its attempt has timed out
    and the limit is not reached; every other case sends one result. *)
Lemma workerSelect_toJobs (job job' : downloadJob) (c : selectCase) :
  workerSelect job c = toJobs job' ->
  c = ctxDone /\ retries job <> MAX_RETRIES
  /\ Entry job' = Entry job /\ retries job' = wrap8 (retries job + 1).
Proof.
  destruct c as [|[e|]]; simpl; [|done..].
  unfold timedOut. destruct (Z.eqb_spec (retries job) MAX_RETRIES) as [E|E]; [done|].
  intros [= <-]. by simpl.
Qed.

Lemma workerSelect_Entry (job : downloadJob) (c : selectCase) :
  match workerSelect job c with
  | toResults r => Entry r = Entry job
  | toJobs job' => Entry job' = Entry job
  end.
Proof.
  destruct c as [|[e|]]; simpl; try done.
  unfold timedOut. by destruct (retries job =? MAX_RETRIES).
Qed.

(** C1, as the code has it.  A job made by [Download] whose attempts all
    time out is attempted exactly six times, the first attempt and
    MAX_RETRIES = 5 retries, with the timeouts 4, 6, 8, 10, 12 and 14
    minutes; the time-out of the sixth attempt sends it to [results] as
    failed with the error of the retry limit, with [retries] = 5 and the
    timeout of 14 minutes = 4 + 2 * 5; there is no seventh attempt, however
    many more time-outs would follow. *)
Theorem timed_out_job_retry_bound (d : Downloader) (entry : CollectionEntry)
    (n : nat) :
  (6 <= n)%nat ->
  exists tried r,
    attempts (repeat ctxDone n) (newJob d entry) = (tried, Some r)
    /\ map jobTimeout tried
       = [4 * Minute; 6 * Minute; 8 * Minute; 10 * Minute; 12 * Minute; 14 * Minute]
    /\ map retries tried = [0; 1; 2; 3; 4; 5]
    /\ length tried = (Z.to_nat MAX_RETRIES + 1)%nat
    /\ Success r = false
    /\ err r = Some errMaxRetries
    /\ retries r = MAX_RETRIES
    /\ jobTimeout r = 4 * Minute + 2 * MAX_RETRIES * Minute
    /\ Entry r = entry.
Proof.
  intros Hn.
  do 6 (destruct n as [|n]; [lia|]).
  eexists _, _. split; [vm_compute; reflexivity|].
  repeat split.
Qed.

(** The retry bound with nine time-outs at hand. *)
Lemma timed_out_job_retry_bound_witness :
  exists tried r,
    attempts (repeat ctxDone 9) (newJob exampleDownloader (exampleEntry "Low"))
      = (tried, Some r)
    /\ map jobTimeout tried
       = [4 * Minute; 6 * Minute; 8 * Minute; 10 * Minute; 12 * Minute; 14 * Minute]
    /\ map retries tried = [0; 1; 2; 3; 4; 5]
    /\ length tried = (Z.to_nat MAX_RETRIES + 1)%nat
    /\ Success r = false
    /\ err r = Some errMaxRetries
    /\ retries r = MAX_RETRIES
    /\ jobTimeout r = 4 * Minute + 2 * MAX_RETRIES * Minute
    /\ Entry r = exampleEntry "Low".
Proof.
  apply (timed_out_job_retry_bound exampleDownloader (exampleEntry "Low") 9). lia.
Defined.

(** C1 as stated fails: the job is attempted a sixth time, and that attempt
    is the one with the timeout of 14 minutes. *)
Lemma timed_out_job_sixth_attempt :
  exists job6,
    (attempts (repeat ctxDone 6)
       (newJob exampleDownloader (exampleEntry "Low"))).1 !! 5%nat = Some job6
    /\ retries job6 = 5
    /\ jobTimeout job6 = 14 * Minute.
Proof. eexists. split; [vm_compute; reflexivity|]. by split. Qed.

(** The error [processJob] returns carries the error of the driver call
    that failed, as the last argument of its format. *)
Lemma processJob_wraps (job : downloadJob) (page : pageReplies) (e : error) :
  processJob job page = Some e ->
  exists format args driver,
    e = Errorf format (args ++ [argError driver])
    /\ Some driver ∈ [NewCollectionEntryPage page; Goto page;
                      SelectFileType page; DownloadFile page].
Proof.
  unfold processJob.
  destruct (NewCollectionEntryPage page) as [e1|] eqn:H1.
  { intros [= <-]. exists "Could not create page: %w", [], e1. split; [done|set_solver]. }
  destruct (Goto page) as [e2|] eqn:H2.
  { intros [= <-]. exists "Could not goto %s: %w", [argString (url (Entry job))], e2.
    split; [done|set_solver]. }
  destruct (SelectFileType page) as [e3|] eqn:H3.
  { intros [= <-].
    exists "Could not select file type %s: %w", [argString (jobFiletype job)], e3.
    split; [done|set_solver]. }
  destruct (DownloadFile page) as [e4|] eqn:H4; [|done].
  intros [= <-]. exists "Could not download file: %w", [], e4. split; [done|set_solver].
Qed.




(** ** One pagination step: what every schedule preserves *)

Lemma sent_app (l1 l2 : list event) : sent (l1 ++ l2) = sent l1 ++ sent l2.
Proof. induction l1 as [|[] l1 IH]; simpl; by rewrite ?IH. Qed.

Lemma emitted_app (l1 l2 : list event) :
  emitted (l1 ++ l2) = emitted l1 ++ emitted l2.
Proof. induction l1 as [|[] l1 IH]; simpl; by rewrite ?IH. Qed.

Lemma received_app (l1 l2 : list event) :
  received (l1 ++ l2) = received l1 ++ received l2.
Proof. induction l1 as [|[] l1 IH]; simpl; by rewrite ?IH. Qed.

Lemma inflight_take (ws : list (option downloadJob)) (w : nat) (j : downloadJob) :
  ws !! w = Some None -> inflight (<[w := Some j]> ws) ≡ₚ j :: inflight ws.
Proof.
  unfold inflight. revert w. induction ws as [|o ws IH]; intros [|w] H; try done.
  - simpl in H. injection H as ->. done.
  - simpl in H. cbn. destruct o as [x|]; simpl.
    + rewrite (IH _ H). apply Permutation_swap.
    + by apply IH.
Qed.

Lemma inflight_give (ws : list (option downloadJob)) (w : nat) (j : downloadJob) :
  ws !! w = Some (Some j) -> inflight ws ≡ₚ j :: inflight (<[w := None]> ws).
Proof.
  unfold inflight. revert w. induction ws as [|o ws IH]; intros [|w] H; try done.
  - simpl in H. injection H as ->. done.
  - simpl in H. cbn. destruct o as [x|]; simpl.
    + rewrite (IH _ H). apply Permutation_swap.
    + by apply IH.
Qed.

Lemma inflight_elem (ws : list (option downloadJob)) (w : nat) (j : downloadJob) :
  ws !! w = Some (Some j) -> j ∈ inflight ws.
Proof.
  intros H. unfold inflight. apply list_elem_of_omap.
  exists (Some j). split; [|done]. by apply list_elem_of_lookup_2 in H.
Qed.

Lemma split_at_last {A} (x : A) (l tr1 tr2 : list A) :
  x ∉ l -> l ++ [x] = tr1 ++ x :: tr2 -> tr1 = l /\ tr2 = [].
Proof.
  revert tr1. induction l as [|a l IH]; intros tr1 Hx H.
  - destruct tr1 as [|b tr1]; simpl in H.
    + injection H as H. by subst.
    + injection H as Hb H. destruct tr1; discriminate.
  - destruct tr1 as [|b tr1]; simpl in H.
    + injection H as Ha _. subst. exfalso. apply Hx. left.
    + injection H as Hb H. subst b.
      apply not_elem_of_cons in Hx as [_ Hx].
      destruct (IH tr1 Hx H) as [E1 E2]. by subst.
Qed.

Lemma recordAll_app (ft : FileType) (m : gmap string bool)
    (l1 l2 : list downloadJob) :
  recordAll ft m (l1 ++ l2) = recordAll ft (recordAll ft m l1) l2.
Proof. unfold recordAll. by rewrite foldl_app. Qed.

Lemma string_app_cons (a : ascii) (s t : string) :
  String a s +:+ t = String a (s +:+ t).
Proof. reflexivity. Qed.

Lemma string_app_nil_r (s : string) : s +:+ "" = s.
Proof. induction s as [|a s IH]; [done|]. by rewrite string_app_cons, IH. Qed.

Lemma string_app_assoc (s t u : string) : (s +:+ t) +:+ u = s +:+ (t +:+ u).
Proof.
  induction s as [|a s IH]; [done|]. by rewrite !string_app_cons, IH.
Qed.

Lemma historyLines_foldl (f : string) (ks : list string) :
  foldl (fun f key => f +:+ historyLine key) f ks = f +:+ historyLines ks.
Proof.
  revert f. induction ks as [|k ks IH]; intros f; simpl.
  - by rewrite string_app_nil_r.
  - by rewrite IH, string_app_assoc.
Qed.

(** [writeOut] appends one line per key and leaves the items as they are. *)
Lemma writeOut_file (order : rangeOrder) (h : History) :
  file (hfile (writeOut order h))
  = file (hfile h) +:+ historyLines (order (items h)).
Proof. unfold writeOut; simpl. apply historyLines_foldl. Qed.

Lemma writeOut_items (order : rangeOrder) (h : History) :
  items (writeOut order h) = items h.
Proof. done. Qed.

Lemma no_scroll_after (l evs tr1 tr2 : list event) :
  ScrollPage ∉ l -> ScrollPage ∉ evs -> l ++ evs = tr1 ++ ScrollPage :: tr2 -> False.
Proof.
  intros Hl He E.
  assert (H : ScrollPage ∈ l ++ evs).
  { rewrite E. apply elem_of_app. right. apply elem_of_cons. by left. }
  apply elem_of_app in H as [H|H]; done.
Qed.

Ltac no_scroll :=
  let H := fresh in
  intros H; repeat (apply elem_of_cons in H as [H|H]; [discriminate H|]);
  by apply elem_of_nil in H.

Lemma callbacks_app (l1 l2 : list event) :
  callbacks (l1 ++ l2) = callbacks l1 ++ callbacks l2.
Proof. induction l1 as [|[] l1 IH]; simpl; by rewrite ?IH. Qed.

Lemma started_app (l1 l2 : list event) :
  started (l1 ++ l2) = started l1 ++ started l2.
Proof. induction l1 as [|[] l1 IH]; simpl; by rewrite ?IH. Qed.


Lemma attempted_app (l1 l2 : list event) :
  attempted (l1 ++ l2) = attempted l1 ++ attempted l2.
Proof. induction l1 as [|[] l1 IH]; simpl; by rewrite ?IH. Qed.

Ltac trace_simpl :=
  rewrite ?sent_app, ?received_app, ?emitted_app, ?callbacks_app, ?started_app;
  simpl; rewrite ?app_nil_r.

Lemma workerSelect_terminal (job r : downloadJob) (c : selectCase) :
  workerSelect job c = toResults r -> terminal r.
Proof.
  destruct c as [|[e|]]; simpl.
  - unfold timedOut. destruct (retries job =? MAX_RETRIES); [|done].
    intros [= <-]. right. by simpl.
  - intros [= <-]. right. by simpl.
  - intros [= <-]. left. by simpl.
Qed.

Section Step.
Context (d : Downloader) (order : rangeOrder) (h0 : History)
        (es : list CollectionEntry).

Lemma startBatch_inv : batchInv d order h0 es (startBatch h0 es).
Proof.
  constructor; simpl; try done.
  intros tr1 tr2 H. by destruct tr1.
Qed.

Lemma inv_counts (b : batch) :
  batchInv d order h0 es b ->
  (length (jobs b) + length (inflight (workers b)) + length (results b)
   + length (received (trace b)) = length (sent (trace b)))%nat.
Proof.
  intros I. pose proof (inv_conserve _ _ _ _ _ I) as Hc.
  apply Permutation_length in Hc.
  rewrite !length_map, !length_app, (inv_fifo _ _ _ _ _ I), length_app in Hc. lia.
Qed.

Lemma inv_sent_le (b : batch) :
  batchInv d order h0 es b ->
  (length (sent (trace b)) <= length es)%nat
  /\ (pc b = scrolled -> length (received (trace b)) = length (sent (trace b)))
  /\ (forall k, pc b = draining k ->
        length (sent (trace b)) = length es
        /\ (length (received (trace b)) + k = length es)%nat)
  /\ (forall todo, pc b = enqueuing todo ->
        (length (sent (trace b)) + length todo = length es)%nat).
Proof.
  intros I. pose proof (inv_pc _ _ _ _ _ I) as Hpc.
  destruct (pc b) as [todo|k|]; destruct Hpc as [H1 H2];
    apply (f_equal length) in H1; rewrite ?length_app, !length_map in H1.
  - split; [lia|]. split; [done|]. split; [done|]. intros ? [= <-]. lia.
  - split; [lia|]. split; [done|]. split; [|done]. intros ? [= <-]. lia.
  - split; [lia|]. split; [lia|]. split; done.
Qed.

Lemma inv_quiet (b : batch) :
  batchInv d order h0 es b -> pc b = scrolled ->
  jobs b = [] /\ inflight (workers b) = [] /\ results b = [].
Proof.
  intros I Hpc. pose proof (inv_counts b I) as Hn.
  destruct (inv_sent_le b I) as (_ & Hs & _). specialize (Hs Hpc).
  repeat split; apply length_zero_iff_nil; lia.
Qed.

Lemma step_scrolled (a : action) (b : batch) :
  batchInv d order h0 es b -> pc b = scrolled -> step d order a b = None.
Proof.
  intros I Hpc. destruct (inv_quiet b I Hpc) as (Hj & Hw & Hr).
  destruct a as [|w|w c]; simpl.
  - unfold orchestratorStep. by rewrite Hpc.
  - unfold workerRecvStep. rewrite Hj. by destruct (workers b !! w) as [[]|].
  - unfold workerSelectStep. destruct (workers b !! w) as [[job|]|] eqn:E; try done.
    apply inflight_elem in E. rewrite Hw in E. by apply elem_of_nil in E.
Qed.

Lemma inv_no_scroll (b : batch) :
  batchInv d order h0 es b -> pc b <> scrolled -> ScrollPage ∉ trace b.
Proof.
  intros I Hpc Hin. apply list_elem_of_split in Hin as (tr1 & tr2 & E).
  by destruct (inv_scroll _ _ _ _ _ I tr1 tr2 E).
Qed.


Lemma orchestratorStep_inv (b b' : batch) :
  batchInv d order h0 es b -> orchestratorStep d order b = Some b' ->
  batchInv d order h0 es b'.
Proof.
  intros I Hstep.
  assert (Hns : pc b <> scrolled).
  { intros E. unfold orchestratorStep in Hstep. by rewrite E in Hstep. }
  pose proof (inv_no_scroll b I Hns) as Hnos.
  destruct I as [He Hw Hpc Hc Hf Hr Ht Hfr Hst Hcb Hi Hfile Hs Hend].
  unfold orchestratorStep in Hstep.
  destruct (pc b) as [[|entry rest]|[|k]|] eqn:Epc; try done.
  - (* all jobs are sent: on to the second loop *)
    injection Hstep as <-. destruct Hpc as [Hpc1 Hpc2].
    rewrite app_nil_r in Hpc1.
    constructor; simpl; try done.
    + split; [done|]. by rewrite Hpc2, He.
    + intros tr1 tr2 E. exfalso. apply Hnos. rewrite E.
      apply elem_of_app. right. apply elem_of_cons. by left.
  - (* one job is sent *)
    case_decide as Hcap; [|done]. injection Hstep as <-.
    destruct Hpc as [Hpc1 Hpc2].
    constructor; simpl; trace_simpl; try done.
    + rewrite Hpc2. split; [|done]. by rewrite map_app, <- app_assoc.
    + rewrite !map_app in *. simpl. rewrite <- Hc. solve_Permutation.
    + rewrite <- app_assoc. apply Forall_app. split.
      * apply Forall_app in Hr as [Hr _]. done.
      * apply Forall_app in Hr as [_ Hr]. apply Forall_cons. split; [|done].
        simpl. unfold MAX_RETRIES. lia.
    + apply Forall_app. split; [done|]. by apply Forall_singleton.
    + by rewrite map_app, Hst.
    + intros tr1 tr2 E. exfalso.
      eapply no_scroll_after; [exact Hnos| |exact E]. no_scroll.
  - (* all results are received: writeOut and ScrollPage *)
    injection Hstep as <-. destruct Hpc as [Hpc1 Hpc2].
    constructor; simpl; trace_simpl; try done.
    + split; [done|lia].
    + rewrite historyLines_foldl. by rewrite Hfile.
    + intros tr1 tr2 E.
      change (trace b ++ [historyWriteOut; ScrollPage])
        with (trace b ++ [historyWriteOut] ++ [ScrollPage]) in E.
      rewrite app_assoc in E.
      apply split_at_last in E as [-> ->].
      2:{ apply not_elem_of_app. split; [done|no_scroll]. }
      trace_simpl. repeat split; [lia|done].
    + intros _. by eexists.
  - (* one result is received *)
    destruct (results b) as [|job rs] eqn:Ers; [done|].
    destruct Hpc as [Hpc1 Hpc2].
    destruct (Success job) eqn:Esucc; injection Hstep as <-.
    + constructor; simpl; trace_simpl; try done.
      * rewrite length_app; simpl. split; [done|lia].
      * by rewrite Hf, <- app_assoc.
      * rewrite map_app, Hcb; simpl. unfold callbackOf. by rewrite Esucc.
      * rewrite recordAll_app, <- Hi; simpl. by rewrite Esucc.
      * intros tr1 tr2 E. exfalso.
        eapply no_scroll_after; [exact Hnos| |exact E]. no_scroll.
    + constructor; simpl; trace_simpl; try done.
      * rewrite length_app; simpl. split; [done|lia].
      * by rewrite Hf, <- app_assoc.
      * rewrite map_app, Hcb; simpl. unfold callbackOf. by rewrite Esucc.
      * rewrite recordAll_app, <- Hi; simpl. by rewrite Esucc.
      * intros tr1 tr2 E. exfalso.
        eapply no_scroll_after; [exact Hnos| |exact E]. no_scroll.
Qed.

Lemma workerRecvStep_inv (w : nat) (b b' : batch) :
  batchInv d order h0 es b -> workerRecvStep w b = Some b' ->
  batchInv d order h0 es b'.
Proof.
  intros I Hstep.
  assert (Hns : pc b <> scrolled).
  { intros E. pose proof (step_scrolled (workerRecv w) b I E) as Hn.
    simpl in Hn. congruence. }
  pose proof (inv_no_scroll b I Hns) as Hnos.
  destruct I as [He Hw Hpc Hc Hf Hr Ht Hfr Hst Hcb Hi Hfile Hs Hend].
  unfold workerRecvStep in Hstep.
  destruct (workers b !! w) as [[|]|] eqn:Ew; try done.
  destruct (jobs b) as [|job rest] eqn:Ej; [done|]. injection Hstep as <-.
  assert (Hperm : rest ++ inflight (<[w:=Some job]> (workers b))
                  ≡ₚ (job :: rest) ++ inflight (workers b)).
  { rewrite (inflight_take _ _ job Ew). solve_Permutation. }
  constructor; simpl; trace_simpl; try done.
  - by rewrite length_insert.
  - rewrite <- Hc, !app_assoc, Hperm. done.
  - by rewrite Hperm.
  - intros tr1 tr2 E. exfalso.
    eapply no_scroll_after; [exact Hnos| |exact E]. no_scroll.
Qed.

Lemma workerSelectStep_inv (w : nat) (c : selectCase) (b b' : batch) :
  batchInv d order h0 es b -> workerSelectStep w c b = Some b' ->
  batchInv d order h0 es b'.
Proof.
  intros I Hstep.
  assert (Hns : pc b <> scrolled).
  { intros E. pose proof (step_scrolled (workerSelects w c) b I E) as Hn.
    simpl in Hn. congruence. }
  pose proof (inv_no_scroll b I Hns) as Hnos.
  destruct I as [He Hw Hpc Hc Hf Hr Ht Hfr Hst Hcb Hi Hfile Hs Hend].
  unfold workerSelectStep in Hstep.
  destruct (workers b !! w) as [[job|]|] eqn:Ew; try done.
  pose proof (inflight_give _ _ _ Ew) as Hperm.
  pose proof (workerSelect_Entry job c) as HE.
  assert (Hjob : 0 <= retries job <= MAX_RETRIES).
  { apply Forall_app in Hr as [_ Hr]. rewrite Forall_forall in Hr.
    apply Hr. by eapply inflight_elem. }
  assert (Hr' : Forall (fun j => 0 <= retries j <= MAX_RETRIES)
                  (jobs b ++ inflight (<[w:=None]> (workers b)))).
  { rewrite Hperm in Hr. apply Forall_app in Hr as [Hr1 Hr2].
    apply Forall_cons in Hr2 as [_ Hr2]. by apply Forall_app. }
  destruct (workerSelect job c) as [r|job'] eqn:Esel.
  - (* one result *)
    case_decide as Hcap; [|done]. injection Hstep as <-.
    constructor; simpl; trace_simpl; try done.
    + by rewrite length_insert.
    + rewrite <- Hc, Hperm. rewrite !map_app. simpl. rewrite HE.
      solve_Permutation.
    + by rewrite Hf, app_assoc.
    + apply Forall_app. split; [done|].
      apply Forall_singleton. by eapply workerSelect_terminal.
    + intros tr1 tr2 E. exfalso.
      eapply no_scroll_after; [exact Hnos| |exact E]. no_scroll.
  - (* the job goes back to the queue *)
    case_decide as Hcap; [|done]. injection Hstep as <-.
    apply workerSelect_toJobs in Esel as (_ & Hlim & _ & Hret).
    constructor; simpl; trace_simpl; try done.
    + by rewrite length_insert.
    + rewrite <- Hc, Hperm. rewrite !map_app. simpl. rewrite HE.
      solve_Permutation.
    + apply Forall_app in Hr' as [Hr1 Hr2].
      rewrite <- app_assoc. apply Forall_app. split; [done|].
      apply Forall_cons. split; [|done].
      rewrite Hret. unfold wrap8, MAX_RETRIES in *.
      rewrite Z.mod_small by lia. lia.
    + intros tr1 tr2 E. exfalso.
      eapply no_scroll_after; [exact Hnos| |exact E]. no_scroll.
Qed.

Lemma step_inv (a : action) (b b' : batch) :
  batchInv d order h0 es b -> step d order a b = Some b' ->
  batchInv d order h0 es b'.
Proof.
  destruct a as [|w|w c]; simpl.
  - apply orchestratorStep_inv.
  - apply workerRecvStep_inv.
  - apply workerSelectStep_inv.
Qed.

Lemma exec_inv (acts : list action) (b : batch) :
  batchInv d order h0 es b -> batchInv d order h0 es (exec d order acts b).
Proof.
  revert b. induction acts as [|a acts IH]; intros b I; [done|].
  unfold exec; simpl. apply IH.
  destruct (step d order a b) as [b'|] eqn:E; simpl; [|done].
  by eapply step_inv.
Qed.

End Step.

Lemma findIdle_Some (ws : list (option downloadJob)) (n w : nat) :
  findIdle ws n = Some w -> exists i, w = (n + i)%nat /\ ws !! i = Some None.
Proof.
  revert n. induction ws as [|[j|] ws IH]; intros n H; simpl in H; [done| |].
  - destruct (IH _ H) as (i & -> & Hi). exists (S i). split; [lia|done].
  - injection H as <-. exists O. split; [lia|done].
Qed.

Lemma findBusy_Some (ws : list (option downloadJob)) (n w : nat) (job : downloadJob) :
  findBusy ws n = Some (w, job) ->
  exists i, w = (n + i)%nat /\ ws !! i = Some (Some job).
Proof.
  revert n. induction ws as [|[j|] ws IH]; intros n H; simpl in H; [done| |].
  - injection H as <- <-. exists O. split; [lia|done].
  - destruct (IH _ H) as (i & -> & Hi). exists (S i). split; [lia|done].
Qed.

Lemma findBusy_None (ws : list (option downloadJob)) (n : nat) :
  findBusy ws n = None -> inflight ws = [] /\ (ws = [] \/ findIdle ws n = Some n).
Proof.
  destruct ws as [|[j|] ws]; simpl; [by auto|done|].
  intros H. split; [|by right].
  revert n H. induction ws as [|[j|] ws IH]; intros n H; simpl in *; try done.
  by apply (IH (S n)).
Qed.

Section Run.
Context (d : Downloader) (order : rangeOrder) (h0 : History)
        (es : list CollectionEntry).

Lemma jobWeight_ge (j : downloadJob) :
  0 <= retries j <= MAX_RETRIES -> (2 <= jobWeight j)%nat.
Proof. unfold jobWeight, MAX_RETRIES. lia. Qed.

Lemma step_turnsLeft (a : action) (b b' : batch) :
  batchInv d order h0 es b -> step d order a b = Some b' ->
  (turnsLeft b' < turnsLeft b)%nat.
Proof.
  intros I Hstep. pose proof (inv_retries _ _ _ _ _ I) as Hr.
  unfold turnsLeft. destruct a as [|w|w c]; simpl in Hstep.
  - unfold orchestratorStep in Hstep.
    destruct (pc b) as [[|entry rest]|[|k]|] eqn:Epc; try done.
    + injection Hstep as <-. simpl. lia.
    + case_decide; [|done]. injection Hstep as <-. simpl.
      rewrite sum_list_with_app. simpl.
      change (jobWeight (newJob d entry)) with 12%nat. lia.
    + injection Hstep as <-. simpl. lia.
    + destruct (results b) as [|job rs]; [done|].
      destruct (Success job); injection Hstep as <-; simpl; lia.
  - unfold workerRecvStep in Hstep.
    destruct (workers b !! w) as [[|]|] eqn:Ew; try done.
    destruct (jobs b) as [|job rest] eqn:Ej; [done|]. injection Hstep as <-.
    simpl. rewrite (inflight_take _ _ job Ew). simpl.
    apply Forall_app in Hr as [Hr _]. apply Forall_cons in Hr as [Hj _].
    apply jobWeight_ge in Hj. lia.
  - unfold workerSelectStep in Hstep.
    destruct (workers b !! w) as [[job|]|] eqn:Ew; try done.
    assert (Hjob : 0 <= retries job <= MAX_RETRIES).
    { apply Forall_app in Hr as [_ Hr]. rewrite Forall_forall in Hr.
      apply Hr. by eapply inflight_elem. }
    rewrite (inflight_give _ _ _ Ew). simpl.
    pose proof (jobWeight_ge job Hjob) as Hw.
    destruct (workerSelect job c) as [r|job'] eqn:Esel.
    + case_decide; [|done]. injection Hstep as <-. simpl. lia.
    + case_decide; [|done]. injection Hstep as <-. simpl.
      apply workerSelect_toJobs in Esel as (_ & Hlim & _ & Hret).
      rewrite sum_list_with_app. simpl.
      assert (jobWeight job' + 2 = jobWeight job)%nat; [|lia].
      unfold jobWeight. rewrite Hret. unfold wrap8, MAX_RETRIES in *.
      rewrite Z.mod_small by lia. lia.
Qed.

Lemma schedule_enabled (attempt : downloadJob -> selectCase) (b : batch) :
  batchInv d order h0 es b -> pc b <> scrolled ->
  exists a b', schedule attempt b = Some a /\ step d order a b = Some b'.
Proof.
  intros I Hns. pose proof (inv_counts d order h0 es b I) as Hn.
  destruct (inv_sent_le d order h0 es b I) as (Hle & _ & Hdr & Hen).
  pose proof (inv_entries _ _ _ _ _ I) as He.
  unfold schedule. destruct (pc b) as [[|entry rest]|[|k]|] eqn:Epc; try done.
  - exists orchestrator. eexists. split; [done|]. simpl.
    unfold orchestratorStep. by rewrite Epc.
  - exists orchestrator. eexists. split; [done|]. simpl.
    unfold orchestratorStep. rewrite Epc.
    specialize (Hen _ eq_refl). simpl in Hen.
    rewrite decide_True; [done|]. unfold capacity. rewrite He. lia.
  - exists orchestrator. eexists. split; [done|]. simpl.
    unfold orchestratorStep. by rewrite Epc.
  - destruct (Hdr _ eq_refl) as [Hs Hk].
    destruct (results b) as [|r rs] eqn:Er.
    + simpl in Hn.
      destruct (findIdle (workers b) 0) as [w|] eqn:Eidle;
        [destruct (jobs b) as [|job rest] eqn:Ej|].
      * (* a free worker, nothing to receive *)
        destruct (findBusy (workers b) 0) as [[w' job]|] eqn:Ebusy.
        -- apply findBusy_Some in Ebusy as (i & -> & Hi). simpl.
           pose proof (inflight_elem _ _ _ Hi) as Hin.
           assert (1 <= length (inflight (workers b)))%nat.
           { destruct (inflight (workers b)); [by apply elem_of_nil in Hin|simpl; lia]. }
           destruct (workerSelect job (attempt job)) eqn:Esel;
             (eexists _, _; split; [reflexivity|]; simpl;
              unfold workerSelectStep; rewrite Hi, Esel, ?Ej, ?Er, decide_True;
              [reflexivity|unfold capacity; rewrite He; simpl; lia]).
        -- apply findBusy_None in Ebusy as [Hinf _].
           rewrite Hinf in Hn. simpl in Hn. lia.
      * apply findIdle_Some in Eidle as (i & -> & Hi). simpl.
        eexists _, _. split; [reflexivity|]. simpl.
        unfold workerRecvStep. by rewrite Hi, Ej.
      * destruct (findBusy (workers b) 0) as [[w' job]|] eqn:Ebusy.
        -- apply findBusy_Some in Ebusy as (i & -> & Hi). simpl.
           pose proof (inflight_elem _ _ _ Hi) as Hin.
           assert (1 <= length (inflight (workers b)))%nat.
           { destruct (inflight (workers b)); [by apply elem_of_nil in Hin|simpl; lia]. }
           destruct (workerSelect job (attempt job)) eqn:Esel;
             (eexists _, _; split; [reflexivity|]; simpl;
              unfold workerSelectStep; rewrite Hi, Esel, ?Er, decide_True;
              [reflexivity|unfold capacity; rewrite He; simpl; lia]).
        -- apply findBusy_None in Ebusy as [_ [Hnil|Hidle]].
           ++ pose proof (inv_workers _ _ _ _ _ I) as Hw. by rewrite Hnil in Hw.
           ++ congruence.
    + destruct (Success r) eqn:Es;
        (eexists _, _; split; [reflexivity|]; simpl;
         unfold orchestratorStep; by rewrite Epc, Er, Es).
Qed.

Lemma turnsLeft_start (h : History) (l : list CollectionEntry) :
  turnsLeft (startBatch h l) = batchFuel (length l).
Proof. unfold turnsLeft, batchFuel. simpl. lia. Qed.

Lemma turnsLeft_zero (b : batch) : turnsLeft b = O -> pc b = scrolled.
Proof. unfold turnsLeft. destruct (pc b); [lia..|done]. Qed.

(** The scheduler brings a step to its end within the fuel [Download]
    gives it, through states of the step relation. *)
Lemma runBatch_scrolled (attempt : downloadJob -> selectCase) (fuel : nat)
    (b : batch) :
  batchInv d order h0 es b -> (turnsLeft b <= fuel)%nat ->
  pc (runBatch d order attempt fuel b) = scrolled
  /\ batchInv d order h0 es (runBatch d order attempt fuel b)
  /\ exists acts, runBatch d order attempt fuel b = exec d order acts b.
Proof.
  revert b. induction fuel as [|fuel IH]; intros b I Hf; simpl.
  - split; [apply turnsLeft_zero; lia|]. split; [done|]. by exists [].
  - assert (Hpc : pc b = scrolled \/ pc b <> scrolled)
      by (destruct (pc b); auto).
    destruct Hpc as [E|E].
    + unfold schedule. rewrite E. split; [done|]. split; [done|]. by exists [].
    + destruct (schedule_enabled attempt b I E) as (a & b' & -> & Hstep).
      rewrite Hstep.
      pose proof (step_inv d order h0 es a b b' I Hstep) as I'.
      pose proof (step_turnsLeft a b b' I Hstep) as Hlt.
      destruct (IH b' I') as (H1 & H2 & acts & H3); [lia|].
      split; [done|]. split; [done|]. exists (a :: acts).
      unfold exec; simpl. by rewrite Hstep.
Qed.

End Run.

(** ** One pagination step: results and the barrier *)

Lemma exec_start_inv (d : Downloader) (order : rangeOrder) (h : History)
    (es : list CollectionEntry) (acts : list action) :
  batchInv d order h es (exec d order acts (startBatch h es)).
Proof. apply exec_inv, startBatch_inv. Qed.

(** The states a schedule leads to are the states the step relation
    reaches. *)
Lemma reachable_exec (d : Downloader) (order : rangeOrder) (b0 b : batch) :
  reachable d order b0 b <-> exists acts, exec d order acts b0 = b.
Proof.
  split.
  - induction 1 as [b|b1 b2 b3 [a Ha] _ [acts IH]].
    + by exists [].
    + exists (a :: acts). unfold exec in *. simpl. by rewrite Ha.
  - intros [acts <-]. revert b0. induction acts as [|a acts IH]; intros b0.
    + apply rtc_refl.
    + unfold exec. simpl. destruct (step d order a b0) as [b1|] eqn:Ha; simpl.
      * eapply rtc_l; [by exists a|]. apply IH.
      * apply IH.
Qed.

(** What a worker does when its [select] fires: either it sends the job
    back to [jobs] and no result, or it sends exactly one final result. *)
Lemma workerSelectStep_sends (w : nat) (c : selectCase) (b b' : batch) :
  workerSelectStep w c b = Some b' ->
  (exists job', jobs b' = jobs b ++ [job']
     /\ results b' = results b
     /\ emitted (trace b') = emitted (trace b)
     /\ c = ctxDone)
  \/ (exists r, results b' = results b ++ [r]
        /\ jobs b' = jobs b
        /\ emitted (trace b') = emitted (trace b) ++ [r]
        /\ terminal r).
Proof.
  unfold workerSelectStep.
  destruct (workers b !! w) as [[job|]|]; try done.
  destruct (workerSelect job c) as [r|job'] eqn:Esel.
  - case_decide; [|done]. intros [= <-]. right. exists r. simpl.
    rewrite emitted_app. simpl. repeat split; try done.
    by eapply workerSelect_terminal.
  - case_decide; [|done]. intros [= <-]. left. exists job'. simpl.
    rewrite emitted_app. simpl. rewrite app_nil_r.
    apply workerSelect_toJobs in Esel as (-> & _). done.
Qed.

(** C2.  Under every schedule of [Download] and its three workers, and
    whatever the [select] of each attempt yields: at every moment the
    results sent are results of distinct jobs that were enqueued, and every
    job enqueued is in exactly one place (in [jobs], with a worker, or its
    result is sent); a worker whose attempt fires either sends the job back
    to [jobs] and no result, or sends one final result; the step is never
    stuck before its end, the scheduler reaches the end, and at the end the
    results sent are one for each job enqueued. *)
Theorem one_result_per_job (d : Downloader) (order : rangeOrder) (h : History)
    (es : list CollectionEntry) (acts : list action) :
  let b := exec d order acts (startBatch h es) in
  map Entry (emitted (trace b)) ⊆+ map Entry (sent (trace b))
  /\ map Entry (jobs b ++ inflight (workers b) ++ emitted (trace b))
     ≡ₚ map Entry (sent (trace b))
  /\ Forall terminal (emitted (trace b))
  /\ (forall w c b', step d order (workerSelects w c) b = Some b' ->
        (exists job', jobs b' = jobs b ++ [job']
           /\ emitted (trace b') = emitted (trace b))
        \/ (exists r, emitted (trace b') = emitted (trace b) ++ [r]
              /\ jobs b' = jobs b /\ terminal r))
  /\ (pc b <> scrolled -> exists a b', step d order a b = Some b')
  /\ (pc b = scrolled ->
        map Entry (sent (trace b)) = es
        /\ map Entry (emitted (trace b)) ≡ₚ es
        /\ received (trace b) = emitted (trace b))
  /\ (forall attempt,
        let b' := runBatch d order attempt (batchFuel (length es))
                    (startBatch h es) in
        pc b' = scrolled /\ map Entry (emitted (trace b')) ≡ₚ es).
Proof.
  intros b. pose proof (exec_start_inv d order h es acts) as I. fold b in I.
  pose proof (inv_conserve _ _ _ _ _ I) as Hc.
  split; [|split; [done|split; [apply (inv_terminal _ _ _ _ _ I)|]]].
  { rewrite <- Hc, !map_app.
    apply submseteq_app_r. exists [], (map Entry (emitted (trace b))).
    split; [done|]. split; [apply submseteq_nil_l|].
    apply submseteq_app_r.
    exists [], (map Entry (emitted (trace b))). split; [done|].
    split; [apply submseteq_nil_l|done]. }
  split.
  { intros w c b' Hstep. simpl in Hstep.
    destruct (workerSelectStep_sends w c b b' Hstep)
      as [(j & H1 & _ & H2 & _)|(r & _ & H1 & H2 & H3)]; [left|right]; eauto. }
  split.
  { intros Hns.
    destruct (schedule_enabled d order h es (fun _ => ctxDone) b I Hns)
      as (a & b' & _ & Hstep). eauto. }
  split.
  { intros Hpc. destruct (inv_quiet d order h es b I Hpc) as (Hj & Hw & Hr).
    pose proof (inv_pc _ _ _ _ _ I) as Hp. rewrite Hpc in Hp.
    destruct Hp as [Hs _]. split; [done|].
    rewrite Hj, Hw in Hc. simpl in Hc. rewrite Hc, Hs. split; [done|].
    by rewrite (inv_fifo _ _ _ _ _ I), Hr, app_nil_r. }
  intros attempt b'.
  destruct (runBatch_scrolled d order h es attempt (batchFuel (length es))
              (startBatch h es)) as (Hpc & I' & _).
  { apply startBatch_inv. }
  { by rewrite turnsLeft_start. }
  fold b' in Hpc, I'. split; [done|].
  destruct (inv_quiet d order h es b' I' Hpc) as (Hj & Hw & Hr).
  pose proof (inv_conserve _ _ _ _ _ I') as Hc'.
  pose proof (inv_pc _ _ _ _ _ I') as Hp. rewrite Hpc in Hp.
  destruct Hp as [Hs _]. rewrite Hj, Hw in Hc'. simpl in Hc'. by rewrite Hc', Hs.
Qed.

(** C7.  Under every schedule: when [page.ScrollPage()] is called in a
    step, [Download] has sent a job for every entry of the step and has
    received as many results as it has sent jobs, one final result for each
    job; nothing of the step happens after the call. *)
Theorem batch_barrier (d : Downloader) (order : rangeOrder) (h : History)
    (es : list CollectionEntry) (acts : list action) (tr1 tr2 : list event) :
  trace (exec d order acts (startBatch h es)) = tr1 ++ ScrollPage :: tr2 ->
  length (received tr1) = length (sent tr1)
  /\ map Entry (sent tr1) = es
  /\ map Entry (received tr1) ≡ₚ map Entry (sent tr1)
  /\ Forall terminal (received tr1)
  /\ tr2 = [].
Proof.
  intros E. set (b := exec d order acts (startBatch h es)) in *.
  pose proof (exec_start_inv d order h es acts) as I. fold b in I.
  destruct (inv_scroll _ _ _ _ _ I tr1 tr2 E) as (Hpc & -> & Hlen & Hs).
  destruct (inv_quiet d order h es b I Hpc) as (Hj & Hw & Hr).
  pose proof (inv_conserve _ _ _ _ _ I) as Hc.
  pose proof (inv_fifo _ _ _ _ _ I) as Hf.
  pose proof (inv_terminal _ _ _ _ _ I) as Ht.
  rewrite Hj, Hw in Hc. simpl in Hc. rewrite Hr, app_nil_r in Hf.
  rewrite Hf in Hc, Ht. rewrite E, received_app, sent_app in Hc.
  rewrite E, received_app in Ht. simpl in Hc, Ht. rewrite !app_nil_r in *.
  repeat split; try done.
  rewrite Hlen, <- Hs. by rewrite length_map.
Qed.

(** ** One pagination step: jobs that always time out *)

Lemma countFor_app (e : CollectionEntry) (l1 l2 : list downloadJob) :
  countFor e (l1 ++ l2) = (countFor e l1 + countFor e l2)%nat.
Proof. unfold countFor. by rewrite filter_app, length_app. Qed.

Lemma countFor_singleton (e : CollectionEntry) (j : downloadJob) :
  countFor e [j] = if decide (Entry j = e) then 1%nat else 0%nat.
Proof.
  unfold countFor. rewrite filter_cons, filter_nil. by case_decide.
Qed.

Lemma workerSelect_toJobs_timeout (job job' : downloadJob) (c : selectCase) :
  workerSelect job c = toJobs job' ->
  jobTimeout job' = wrap64 (jobTimeout job + 2 * Minute).
Proof.
  destruct c as [|[err|]]; simpl; [|done..].
  unfold timedOut. destruct (retries job =? MAX_RETRIES); [done|].
  by intros [= <-].
Qed.

Section TimeOuts.
Context (d : Downloader) (order : rangeOrder) (h0 : History)
        (es : list CollectionEntry) (e : CollectionEntry).

Lemma startBatch_timeoutInv : timeoutInv e (startBatch h0 es).
Proof. constructor; simpl; by try constructor. Qed.

Lemma step_timeoutInv (a : action) (b b' : batch) :
  batchInv d order h0 es b -> timeoutInv e b ->
  match a with
  | workerSelects w c =>
      forall job, workers b !! w = Some (Some job) -> Entry job = e -> c = ctxDone
  | _ => True
  end ->
  step d order a b = Some b' -> timeoutInv e b'.
Proof.
  intros I [Hw Ha He Hc] Htime Hstep.
  pose proof (inv_retries _ _ _ _ _ I) as Hr.
  destruct a as [|w|w c]; simpl in Hstep.
  - unfold orchestratorStep in Hstep.
    destruct (pc b) as [[|entry rest]|[|k]|] eqn:Epc; try done.
    + injection Hstep as <-. by constructor.
    + case_decide; [|done]. injection Hstep as <-.
      constructor; simpl;
        rewrite ?attempted_app, ?emitted_app, ?sent_app; simpl;
        rewrite ?app_nil_r; try done.
      * rewrite <- app_assoc. apply Forall_app in Hw as [Hw1 Hw2].
        apply Forall_app. split; [done|]. apply Forall_cons. split; [|done].
        simpl. lia.
      * rewrite sum_list_with_app, countFor_app, countFor_singleton. simpl.
        unfold queuedFor at 2. simpl. case_decide; simpl; lia.
    + injection Hstep as <-.
      constructor; simpl;
        rewrite ?attempted_app, ?emitted_app, ?sent_app; simpl;
        rewrite ?app_nil_r; done.
    + destruct (results b) as [|job rs]; [done|].
      destruct (Success job); injection Hstep as <-;
        (constructor; simpl;
         rewrite ?attempted_app, ?emitted_app, ?sent_app; simpl;
         rewrite ?app_nil_r; done).
  - unfold workerRecvStep in Hstep.
    destruct (workers b !! w) as [[|]|] eqn:Ew; try done.
    destruct (jobs b) as [|job rest] eqn:Ej; [done|]. injection Hstep as <-.
    assert (Hperm : rest ++ inflight (<[w:=Some job]> (workers b))
                    ≡ₚ (job :: rest) ++ inflight (workers b)).
    { rewrite (inflight_take _ _ job Ew). solve_Permutation. }
    assert (Hjob : 0 <= retries job <= MAX_RETRIES).
    { apply Forall_app in Hr as [Hr _]. by apply Forall_cons in Hr as [? _]. }
    constructor; simpl;
      rewrite ?attempted_app, ?emitted_app, ?sent_app; simpl;
      rewrite ?app_nil_r; try done.
    + by rewrite Hperm.
    + apply Forall_app. split; [done|]. apply Forall_singleton. split; [done|].
      apply Forall_app in Hw as [Hw _]. by apply Forall_cons in Hw as [? _].
    + rewrite (inflight_take _ _ job Ew), countFor_app, countFor_singleton.
      simpl in Hc |- *. unfold queuedFor at 1 in Hc. unfold heldFor at 1.
      unfold MAX_RETRIES in *. case_decide; simpl; lia.
  - unfold workerSelectStep in Hstep.
    destruct (workers b !! w) as [[job|]|] eqn:Ew; try done.
    pose proof (inflight_give _ _ _ Ew) as Hperm.
    assert (Hjob : 0 <= retries job <= MAX_RETRIES).
    { apply Forall_app in Hr as [_ Hr]. rewrite Forall_forall in Hr.
      apply Hr. by eapply inflight_elem. }
    assert (Hjt : jobTimeout job = 4 * Minute + retries job * (2 * Minute)).
    { apply Forall_app in Hw as [_ Hw']. rewrite Forall_forall in Hw'.
      apply Hw'. by eapply inflight_elem. }
    assert (Hw' : Forall (fun j => jobTimeout j = 4 * Minute + retries j * (2 * Minute))
                    (jobs b ++ inflight (<[w:=None]> (workers b)))).
    { rewrite Hperm in Hw. apply Forall_app in Hw as [Hw1 Hw2].
      apply Forall_cons in Hw2 as [_ Hw2]. by apply Forall_app. }
    rewrite Hperm in Hc. simpl in Hc. specialize (Htime job eq_refl).
    destruct (workerSelect job c) as [r|job'] eqn:Esel.
    + case_decide; [|done]. injection Hstep as <-.
      constructor; simpl;
        rewrite ?attempted_app, ?emitted_app, ?sent_app; simpl;
        rewrite ?app_nil_r; try done.
      * apply Forall_app. split; [done|]. apply Forall_singleton.
        pose proof (workerSelect_Entry job c) as HE. rewrite Esel in HE.
        intros Her. rewrite HE in Her. rewrite (Htime Her) in Esel.
        simpl in Esel. unfold timedOut in Esel.
        destruct (Z.eqb_spec (retries job) MAX_RETRIES) as [E5|E5]; [|done].
        injection Esel as <-. simpl. rewrite Hjt, E5. unfold MAX_RETRIES, Minute.
        repeat split; lia.
      * unfold heldFor at 1 in Hc. case_decide as Hent; [|lia].
        rewrite (Htime Hent) in Esel. simpl in Esel. unfold timedOut in Esel.
        destruct (Z.eqb_spec (retries job) MAX_RETRIES) as [E5|E5]; [|done].
        rewrite E5 in Hc. simpl in Hc. lia.
    + case_decide; [|done]. injection Hstep as <-.
      pose proof (workerSelect_Entry job c) as HE. rewrite Esel in HE.
      pose proof (workerSelect_toJobs_timeout _ _ _ Esel) as Hto.
      apply workerSelect_toJobs in Esel as (_ & Hlim & _ & Hret).
      assert (Hret' : retries job' = retries job + 1).
      { rewrite Hret. unfold wrap8, MAX_RETRIES in *.
        rewrite Z.mod_small by lia. lia. }
      constructor; simpl;
        rewrite ?attempted_app, ?emitted_app, ?sent_app; simpl;
        rewrite ?app_nil_r; try done.
      * apply Forall_app in Hw' as [Hw1 Hw2].
        rewrite <- app_assoc. apply Forall_app. split; [done|].
        apply Forall_cons. split; [|done].
        rewrite Hto, Hret', Hjt. unfold wrap64, MAX_RETRIES, Minute in *.
        rewrite Z.mod_small by lia. lia.
      * rewrite sum_list_with_app. simpl.
        unfold heldFor at 1 in Hc. unfold queuedFor at 2. rewrite HE.
        unfold MAX_RETRIES in *. case_decide; rewrite ?Hret'; lia.
Qed.

Lemma exec_timeoutInv (acts : list action) (b : batch) :
  batchInv d order h0 es b -> timeoutInv e b ->
  allTimeOut d order e acts b ->
  timeoutInv e (exec d order acts b).
Proof.
  revert b. induction acts as [|a acts IH]; intros b I T H; [done|].
  destruct H as [Ha Hrest]. unfold exec; simpl.
  destruct (step d order a b) as [b'|] eqn:E; simpl in *.
  - apply IH; [by eapply step_inv|by eapply step_timeoutInv|done].
  - by apply IH.
Qed.

End TimeOuts.

(** The retry bound in the pool.  Under every schedule in which each attempt at a job of
    the entry [e] ends by its deadline: every attempt is made with at most
    MAX_RETRIES retries behind it and with the timeout of 4 minutes plus 2
    minutes per retry; every result for [e] is a failure with the error of
    the retry limit, 5 retries and the timeout of 14 minutes; the jobs of
    [e] are attempted at most six times each, and exactly six times each
    when the step has come to its end. *)
Theorem pool_timed_out_jobs (d : Downloader) (order : rangeOrder) (h : History)
    (es : list CollectionEntry) (e : CollectionEntry) (acts : list action) :
  allTimeOut d order e acts (startBatch h es) ->
  let b := exec d order acts (startBatch h es) in
  Forall (fun j => 0 <= retries j <= MAX_RETRIES
                   /\ jobTimeout j = 4 * Minute + retries j * (2 * Minute))
    (attempted (trace b))
  /\ Forall (fun r => Entry r = e ->
                      Success r = false /\ err r = Some errMaxRetries
                      /\ retries r = MAX_RETRIES /\ jobTimeout r = 14 * Minute)
       (emitted (trace b))
  /\ (countFor e (attempted (trace b)) <= 6 * countFor e (sent (trace b)))%nat
  /\ (pc b = scrolled ->
      countFor e (attempted (trace b)) = (6 * countFor e (sent (trace b)))%nat).
Proof.
  intros Hall b.
  pose proof (exec_start_inv d order h es acts) as I. fold b in I.
  destruct (exec_timeoutInv d order h es e acts (startBatch h es)
              (startBatch_inv d order h es) (startBatch_timeoutInv h es e) Hall)
    as [Hw Ha He Hc]. fold b in Hw, Ha, He, Hc.
  split; [done|]. split; [done|]. split; [lia|].
  intros Hpc. destruct (inv_quiet d order h es b I Hpc) as (Hj & Hi & _).
  rewrite Hj, Hi in Hc. simpl in Hc. lia.
Qed.

(** ** [Download]: the loop over the pagination steps *)

(** One step run by the scheduler, from its start to [page.ScrollPage()]. *)
Lemma runBatch_start (d : Downloader) (order : rangeOrder)
    (attempt : downloadJob -> selectCase) (h : History)
    (es : list CollectionEntry) :
  let b := runBatch d order attempt (batchFuel (length es)) (startBatch h es) in
  pc b = scrolled /\ batchInv d order h es b
  /\ jobs b = [] /\ inflight (workers b) = [] /\ results b = [].
Proof.
  intros b.
  destruct (runBatch_scrolled d order h es attempt (batchFuel (length es))
              (startBatch h es)) as (Hpc & I & _).
  { apply startBatch_inv. }
  { by rewrite turnsLeft_start. }
  split; [done|]. split; [done|]. by apply (inv_quiet d order h es).
Qed.


Section Loop.
Context (w : World) (d : Downloader) (opts : DownloadOpts).

(** A property of traces that holds of the trace of every step and is kept
    by concatenation holds of the trace of the loop. *)
Lemma scrollLoop_events (P : list event -> Prop) :
  (forall l1 l2, P l1 -> P l2 -> P (l1 ++ l2)) ->
  (forall h es,
     P (trace (runBatch d (rangeItems w) (selectOf w) (batchFuel (length es))
                 (startBatch h es)))) ->
  forall n i h tr, P tr -> P (scrollLoop w d opts n i h tr).2.
Proof.
  intros Happ Hb. induction n as [|n IH]; intros i h tr Htr; simpl; [done|].
  destruct (Entries w i (Filter opts)) as [entries [e|]]; simpl; [done|].
  apply IH. apply Happ; [done|]. apply Hb.
Qed.



(** The same for the trace of [Download]. *)
Lemma Download_events (P : list event -> Prop) :
  P [] -> P [historyWriteOut] ->
  (forall l1 l2, P l1 -> P l2 -> P (l1 ++ l2)) ->
  (forall h es,
     P (trace (runBatch d (rangeItems w) (selectOf w) (batchFuel (length es))
                 (startBatch h es)))) ->
  P (events (Download d opts w)).
Proof.
  intros Hnil Hw Happ Hb. unfold Download, abort.
  destruct (mkdirError (Mkdir_outDir w)); [done|].
  destruct (mkdirError (Mkdir_bcdlDir w)); [done|].
  destruct (NewHistory (OpenFile w) (downloaded w)) as [history|]; [|done].
  destruct (playwrightInstall w); [done|].
  destruct (playwrightRun w); [done|].
  destruct (chromiumLaunch w); [done|].
  destruct (NewAuthorizedBandcampContext w); [done|].
  destruct (NewCollectionPage w); [done|].
  destruct (collectionGoto w); [done|].
  destruct (AlbumCount w) as [count e1]. destruct (ScrollTimes w) as [n e2].
  pose proof (scrollLoop_events P Happ Hb (Z.to_nat n) O history [] Hnil) as H.
  destruct (scrollLoop w d opts (Z.to_nat n) 0 history []) as [[e h'] tr].
  simpl in H. destruct e; simpl; [done|].
  destruct (browserClose w); simpl; [by apply Happ|].
  destruct (pwStop w); simpl; by apply Happ.
Qed.

End Loop.






(** ** The timeout of the options *)

Lemma step_WithTimeout (t : Z) (d : Downloader) (order : rangeOrder)
    (a : action) (b : batch) :
  step (WithTimeout t d) order a b = step d order a b.
Proof. reflexivity. Qed.

Lemma runBatch_WithTimeout (t : Z) (d : Downloader) (order : rangeOrder)
    attempt (fuel : nat) (b : batch) :
  runBatch (WithTimeout t d) order attempt fuel b
  = runBatch d order attempt fuel b.
Proof.
  revert b. induction fuel as [|fuel IH]; intros b; simpl; [done|].
  destruct (schedule attempt b) as [a|]; [|done].
  rewrite step_WithTimeout. by destruct (step d order a b).
Qed.

Lemma scrollLoop_WithTimeout (t : Z) (w : World) (d : Downloader)
    (opts : DownloadOpts) (n i : nat) (h : History) (tr : list event) :
  scrollLoop w (WithTimeout t d) opts n i h tr = scrollLoop w d opts n i h tr.
Proof.
  revert i h tr. induction n as [|n IH]; intros i h tr; simpl; [done|].
  destruct (Entries w i (Filter opts)) as [entries [e|]]; [done|].
  by rewrite runBatch_WithTimeout, IH.
Qed.

(** C10.  The timeout of the options plays no part: [Download] does the same
    with any timeout set by [WithTimeout], every job it sends has the
    timeout of 4 minutes and no retries, and so have the jobs under the
    options of [DefaultDownloader], whose timeout is 3 minutes. *)
Theorem job_timeout_is_four_minutes (d : Downloader) (opts : DownloadOpts)
    (w : World) (t : Z) :
  Download (WithTimeout t d) opts w = Download d opts w
  /\ Forall (fun j => jobTimeout j = 4 * Minute /\ retries j = 0)
       (sent (events (Download d opts w)))
  /\ (forall u dir,
        match DefaultDownloader u dir with
        | inl d0 =>
            timeout d0 = 3 * Minute
            /\ Forall (fun j => jobTimeout j = 4 * Minute)
                 (sent (events (Download d0 opts w)))
        | inr _ => dir = ""
        end).
Proof.
  assert (Hall : forall d0,
    Forall (fun j => jobTimeout j = 4 * Minute /\ retries j = 0)
      (sent (events (Download d0 opts w)))).
  { intros d0.
    apply (Download_events w d0 opts
            (fun tr => Forall (fun j => jobTimeout j = 4 * Minute /\ retries j = 0)
                         (sent tr))); try done.
    - intros l1 l2 H1 H2. rewrite sent_app. by apply Forall_app.
    - intros h es. destruct (runBatch_start d0 (rangeItems w) (selectOf w) h es)
        as (_ & I & _).
      pose proof (inv_fresh _ _ _ _ _ I) as Hf.
      eapply Forall_impl; [exact Hf|]. intros j ->. done. }
  split; [|split; [apply Hall|]].
  - unfold Download.
    destruct (NewHistory (OpenFile w) (downloaded w)) as [history|].
    + destruct (AlbumCount w) as [count e1]. destruct (ScrollTimes w) as [n e2].
      by rewrite scrollLoop_WithTimeout.
    + done.
  - intros u dir. unfold DefaultDownloader, NewDownloader.
    destruct (String.eqb_spec dir ""); [done|]. simpl. split; [done|].
    eapply Forall_impl; [apply Hall|]. by intros j [? _].
Qed.

(** ** Errors of the listing *)

(** The errors of [page.filter], [page.AlbumCount] and [page.ScrollTimes]
    are assigned and never looked at. *)
Lemma Download_withListingErrors (d : Downloader) (opts : DownloadOpts)
    (w : World) filterErr countErr scrollErr :
  Download d opts (withListingErrors w filterErr countErr scrollErr)
  = Download d opts w.
Proof.
  unfold Download, abort. simpl.
  destruct (AlbumCount w) as [count e1]. destruct (ScrollTimes w) as [n e2].
  simpl.
  assert (H : forall k i h tr,
    scrollLoop (withListingErrors w filterErr countErr scrollErr) d opts k i h tr
    = scrollLoop w d opts k i h tr).
  { induction k as [|k IH]; intros i h tr; simpl; [done|].
    destruct (Entries w i (Filter opts)) as [entries [e|]]; [done|].
    by rewrite IH. }
  destruct (NewHistory (OpenFile w) (downloaded w)) as [history|]; [|done].
  by rewrite H.
Qed.

(** ** The history file *)

Lemma hasLF_app (s t : string) : hasLF (s +:+ t) = hasLF s || hasLF t.
Proof.
  induction s as [|a s IH]; [done|].
  rewrite string_app_cons. simpl. by rewrite IH, orb_assoc.
Qed.

Lemma dropCR_noLF (s : string) : hasLF s = false -> hasLF (dropCR s) = false.
Proof.
  induction s as [|a s IH]; [done|]. simpl.
  intros [Ha Hs]%orb_false_elim. destruct s as [|b s].
  - destruct (Ascii.eqb a CR); simpl; [done|]. by rewrite Ha.
  - change (hasLF (String a (dropCR (String b s))) = false). simpl.
    rewrite Ha. simpl. by apply IH.
Qed.

Lemma dropCR_safe (s : string) : endsWith CR s = false -> dropCR s = s.
Proof.
  induction s as [|a s IH]; [done|]. simpl. destruct s as [|b s].
  - by intros ->.
  - intros H. by rewrite IH.
Qed.

Lemma string_length_app (s t : string) :
  String.length (s +:+ t) = (String.length s + String.length t)%nat.
Proof.
  induction s as [|a s IH]; [done|]. rewrite string_app_cons. simpl.
  by rewrite IH.
Qed.

Lemma dropCR_length (s : string) :
  (String.length (dropCR s) <= String.length s)%nat.
Proof.
  induction s as [|a s IH]; [done|]. destruct s as [|b s].
  - simpl. destruct (Ascii.eqb a CR); simpl; lia.
  - change (dropCR (String a (String b s)))
      with (String a (dropCR (String b s))).
    simpl in *. lia.
Qed.

Lemma scanLines_noLF (data line t : string) :
  hasLF line = false -> t ∈ scanLines data line -> hasLF t = false.
Proof.
  revert line. induction data as [|c r IH]; intros line Hl; simpl.
  - destruct line; [by intros ?%elem_of_nil|].
    intros ->%list_elem_of_singleton. by apply dropCR_noLF.
  - destruct (Ascii.eqb c LF) eqn:Ec.
    + intros [->|H]%elem_of_cons; [by apply dropCR_noLF|]. by apply (IH "").
    + destruct (MaxScanTokenSize <=? _); [by intros ?%elem_of_nil|].
      apply IH. rewrite hasLF_app, Hl. simpl. by rewrite Ec.
Qed.

(** No token has [MaxScanTokenSize] bytes or more. *)
Lemma scanLines_short (data line t : string) :
  Z.of_nat (String.length line) < MaxScanTokenSize ->
  t ∈ scanLines data line -> Z.of_nat (String.length t) < MaxScanTokenSize.
Proof.
  revert line. induction data as [|c r IH]; intros line Hl; simpl.
  - destruct line; [by intros ?%elem_of_nil|].
    intros ->%list_elem_of_singleton.
    pose proof (dropCR_length (String a line)). lia.
  - destruct (Ascii.eqb c LF) eqn:Ec.
    + intros [->|H]%elem_of_cons.
      * pose proof (dropCR_length line). lia.
      * by apply (IH "").
    + destruct (MaxScanTokenSize <=? _) eqn:El; [by intros ?%elem_of_nil|].
      apply IH. apply Z.leb_gt in El.
      rewrite string_length_app. simpl. lia.
Qed.

(** A line as long as the buffer: nothing of it nor after it is read. *)
Lemma scanLines_too_long (s rest line : string) :
  hasLF s = false ->
  MaxScanTokenSize <= Z.of_nat (String.length line + String.length s) ->
  Z.of_nat (String.length line) < MaxScanTokenSize ->
  scanLines (s +:+ rest) line = [].
Proof.
  revert line. induction s as [|c s IH]; intros line Hs Hlen Hl.
  - simpl in Hlen. lia.
  - simpl in Hs. apply orb_false_elim in Hs as [Hc Hs].
    rewrite string_app_cons. simpl. rewrite Hc.
    destruct (MaxScanTokenSize <=? _) eqn:El; [done|].
    apply Z.leb_gt in El. apply IH; [done| |].
    + rewrite string_length_app. simpl in *. lia.
    + rewrite string_length_app. simpl. lia.
Qed.

(** A line without line feed and shorter than the buffer, ended by a line
    feed, is the next token. *)
Lemma scanLines_line (s rest line : string) :
  hasLF s = false ->
  Z.of_nat (String.length line + String.length s) < MaxScanTokenSize ->
  scanLines (s +:+ String LF rest) line
  = dropCR (line +:+ s) :: scanLines rest "".
Proof.
  revert line. induction s as [|c s IH]; intros line.
  - intros _ _. change ("" +:+ String LF rest) with (String LF rest). simpl.
    by rewrite string_app_nil_r.
  - intros H Hlen. simpl in H. apply orb_false_elim in H as [Hc Hs].
    rewrite string_app_cons. simpl. rewrite Hc.
    destruct (MaxScanTokenSize <=? _) eqn:El.
    { apply Z.leb_le in El. simpl in Hlen. lia. }
    rewrite (IH _ Hs).
    + do 2 f_equal. by rewrite string_app_assoc.
    + rewrite string_length_app. simpl in *. lia.
Qed.

Lemma shortLines_line (s rest : string) (n : Z) :
  hasLF s = false ->
  n + Z.of_nat (String.length s) < MaxScanTokenSize ->
  shortLines (s +:+ String LF rest) n = shortLines rest 0.
Proof.
  revert n. induction s as [|c s IH]; intros n.
  - intros _ _. done.
  - intros H Hlen. simpl in H. apply orb_false_elim in H as [Hc Hs].
    rewrite string_app_cons. simpl. rewrite Hc.
    destruct (MaxScanTokenSize <=? _) eqn:El.
    { apply Z.leb_le in El. simpl in Hlen. lia. }
    apply IH; [done|]. simpl in Hlen. lia.
Qed.

Lemma historyLines_cons (k : string) (ks : list string) :
  historyLines (k :: ks) = k +:+ String LF (historyLines ks).
Proof. unfold historyLines, historyLine. simpl. by rewrite string_app_assoc. Qed.

Lemma scanLines_historyLines (ks : list string) :
  Forall fitsLine ks ->
  scanLines (historyLines ks) "" = map dropCR ks.
Proof.
  induction 1 as [|k ks [Hk Hl] _ IH]; [done|].
  rewrite historyLines_cons, (scanLines_line _ _ _ Hk), IH; done.
Qed.

Lemma shortLines_historyLines (ks : list string) :
  Forall fitsLine ks -> shortLines (historyLines ks) 0 = true.
Proof.
  induction 1 as [|k ks [Hk Hl] _ IH]; [done|].
  rewrite historyLines_cons, (shortLines_line _ _ _ Hk); [done|lia].
Qed.

Lemma scanLines_app (f g line : string) :
  endsWith LF f = true ->
  shortLines f (Z.of_nat (String.length line)) = true ->
  scanLines (f +:+ g) line = scanLines f line ++ scanLines g "".
Proof.
  revert line. induction f as [|c f IH]; intros line; [done|].
  rewrite string_app_cons. simpl. destruct f as [|c' f].
  - intros -> _. done.
  - intros H Hs. destruct (Ascii.eqb c LF).
    + by rewrite (IH "" H Hs).
    + destruct (MaxScanTokenSize <=? _); [done|].
      rewrite (IH _ H); [done|].
      rewrite string_length_app. simpl.
      by rewrite Nat2Z.inj_add.
Qed.

Lemma shortLines_app (f g : string) (n : Z) :
  endsWith LF f = true ->
  shortLines (f +:+ g) n = shortLines f n && shortLines g 0.
Proof.
  revert n. induction f as [|c f IH]; intros n; [done|].
  rewrite string_app_cons. simpl. destruct f as [|c' f].
  - intros ->. done.
  - intros H. destruct (Ascii.eqb c LF); [by apply IH|].
    destruct (MaxScanTokenSize <=? _); [done|]. by apply IH.
Qed.

Lemma scanLines_terminated_app (f g : string) :
  terminated f = true -> shortLines f 0 = true ->
  scanLines (f +:+ g) "" = scanLines f "" ++ scanLines g "".
Proof. destruct f; [done|]. apply (scanLines_app _ _ ""). Qed.

Lemma shortLines_terminated_app (f g : string) :
  terminated f = true ->
  shortLines (f +:+ g) 0 = shortLines f 0 && shortLines g 0.
Proof. destruct f; [done|]. apply shortLines_app. Qed.

Lemma endsWith_app (a : ascii) (f g : string) :
  g <> "" -> endsWith a (f +:+ g) = endsWith a g.
Proof.
  intros Hg. induction f as [|c f IH]; [done|].
  rewrite string_app_cons. simpl. rewrite IH.
  destruct (f +:+ g) eqn:E; [|done]. destruct f; [done|discriminate].
Qed.

Lemma endsWith_historyLines (k : string) (ks : list string) :
  endsWith LF (historyLines (k :: ks)) = true.
Proof.
  assert (Haux : forall X, X = "" \/ endsWith LF X = true ->
                           endsWith LF (String LF X) = true).
  { intros [|a s] [H|H]; done. }
  revert k. induction ks as [|k' ks IH]; intros k; rewrite historyLines_cons;
    (rewrite endsWith_app; [|done]); apply Haux; [by left|right; apply IH].
Qed.

Lemma terminated_historyLines (f : string) (ks : list string) :
  terminated f = true -> terminated (f +:+ historyLines ks) = true.
Proof.
  intros Hf. destruct ks as [|k ks].
  - by rewrite string_app_nil_r.
  - assert (Hne : historyLines (k :: ks) <> "").
    { rewrite historyLines_cons. by destruct k. }
    unfold terminated. destruct (f +:+ historyLines (k :: ks)) eqn:E; [done|].
    rewrite <- E, endsWith_app by done. apply endsWith_historyLines.
Qed.

Lemma foldl_insert_lookup (l : list string) (m : gmap string bool) (k : string) :
  is_Some (foldl (fun m text => <[text := true]> m) m l !! k)
  <-> k ∈ l \/ is_Some (m !! k).
Proof.
  revert m. induction l as [|t l IH]; intros m; simpl.
  - split; [by right|]. by intros [?%elem_of_nil|].
  - rewrite IH, elem_of_cons, lookup_insert. case_decide as E.
    + subst. split; [|intros _; by right]. intros _. left. by left.
    + split.
      * intros [H|H]; [left; by right|by right].
      * intros [[H|H]|H]; [congruence|by left|by right].
Qed.

(** The items read are the lines of the file. *)
Lemma readHistory_lookup (f : historyFile) (k : string) :
  is_Some (items (readHistory f) !! k) <-> k ∈ scanLines (file f) "".
Proof.
  unfold readHistory; simpl. rewrite foldl_insert_lookup, lookup_empty.
  split; [intros [|[]]|]; by auto.
Qed.

Lemma containsDownload_lookup (h : History) (t : string) (ft : FileType) :
  containsDownload h t ft = true <-> is_Some (items h !! md5Download t ft).
Proof.
  unfold containsDownload. destruct (items h !! _); split; done.
Qed.

Lemma readHistory_synced (contents : string) :
  terminated contents = true -> shortLines contents 0 = true ->
  synced (readHistory {| file := contents |}).
Proof.
  intros Ht Hs. split; [split; [done|split; [done|]]|].
  - intros k Hk. apply (proj1 (readHistory_lookup _ _)) in Hk. split.
    + eapply scanLines_noLF; [|exact Hk]. done.
    + eapply scanLines_short; [|exact Hk]. done.
  - intros k Hk _. by apply (proj1 (readHistory_lookup _ _)) in Hk.
Qed.

Lemma wellFormed_keysOf (order : rangeOrder) (h : History) :
  wellFormed h -> Forall fitsLine (keysOf order (items h)).
Proof.
  intros (_ & _ & Hk). apply Forall_forall. intros k' Hk'. apply Hk.
  rewrite (keysOf_perm order) in Hk'.
  apply list_elem_of_fmap in Hk' as ([k'' v] & -> & Hv).
  apply elem_of_map_to_list in Hv. by eexists.
Qed.

(** After [writeOut], the file has a line for every key. *)
Lemma writeOut_synced (order : rangeOrder) (h : History) :
  wellFormed h -> synced (writeOut order h).
Proof.
  intros Hwf. pose proof (wellFormed_keysOf order h Hwf) as Hkeys.
  destruct Hwf as (Ht & Hs & Hk). split; [split; [|split]|].
  - rewrite writeOut_file. by apply terminated_historyLines.
  - rewrite writeOut_file, shortLines_terminated_app, Hs by done.
    by apply shortLines_historyLines.
  - done.
  - intros k Hin Hsafe. rewrite writeOut_file, writeOut_items in *.
    rewrite scanLines_terminated_app by done. apply elem_of_app. right.
    rewrite scanLines_historyLines by done.
    apply list_elem_of_fmap. exists k. split.
    + unfold lineSafe in Hsafe. apply andb_true_iff in Hsafe as [_ Hcr].
      symmetry. apply dropCR_safe. by destruct (endsWith CR k).
    + rewrite (keysOf_perm order). apply list_elem_of_fmap.
      destruct Hin as [v Hv]. exists (k, v). split; [done|].
      by apply elem_of_map_to_list.
Qed.

(** A fingerprint has the 16 bytes of the digest. *)
Lemma md5Download_length (title : string) (ft : FileType) :
  String.length (md5Download title ft) = 16%nat.
Proof.
  unfold md5Download, Sum, MD5.sum.
  destruct (MD5.blocks _ _ _) as [[[a b] c] d]. done.
Qed.

Lemma recordAll_lookup (ft : FileType) (rs : list downloadJob)
    (m : gmap string bool) (k : string) :
  is_Some (recordAll ft m rs !! k)
  <-> is_Some (m !! k)
      \/ exists r, r ∈ rs /\ Success r = true
                   /\ k = md5Download (title (Entry r)) ft.
Proof.
  revert m. induction rs as [|r rs IH]; intros m.
  - simpl. split; [by left|]. intros [|(r & ?%elem_of_nil & _)]; done.
  - change (recordAll ft m (r :: rs))
      with (recordAll ft (if Success r
                          then <[md5Download (title (Entry r)) ft := true]> m
                          else m) rs).
    rewrite IH. destruct (Success r) eqn:Es.
    + rewrite lookup_insert. case_decide as E.
      * split; [|intros _; left; by eexists].
        intros _. right. exists r. split; [by left|]. by split.
      * split.
        -- intros [|(r' & Hin & H1 & H2)]; [by left|].
           right. exists r'. split; [by right|]. by split.
        -- intros [|(r' & Hin & H1 & H2)]; [by left|].
           apply elem_of_cons in Hin as [->|Hin]; [congruence|].
           right. by exists r'.
    + split.
      * intros [|(r' & Hin & H1 & H2)]; [by left|].
        right. exists r'. split; [by right|]. by split.
      * intros [|(r' & Hin & H1 & H2)]; [by left|].
        apply elem_of_cons in Hin as [->|Hin]; [congruence|].
        right. by exists r'.
Qed.

(** ** Two runs over the same collection *)

Lemma synced_ext (h1 h2 : History) :
  file (hfile h1) = file (hfile h2) -> items h1 = items h2 ->
  synced h1 -> synced h2.
Proof.
  unfold synced, wellFormed. intros <- <-. done.
Qed.

Lemma skipDownloaded_elem (h : History) (ft : FileType)
    (entries : list CollectionEntry) (e : CollectionEntry) :
  e ∈ skipDownloaded h ft entries
  <-> e ∈ entries /\ containsDownload h (title e) ft = false.
Proof.
  unfold skipDownloaded. rewrite !list_elem_of_In, filter_In.
  by rewrite negb_true_iff.
Qed.

Lemma skipDownloaded_nil (h : History) (ft : FileType)
    (entries : list CollectionEntry) :
  (forall e, e ∈ entries -> containsDownload h (title e) ft = true) ->
  skipDownloaded h ft entries = [].
Proof.
  intros H. destruct (skipDownloaded h ft entries) as [|e l] eqn:E; [done|].
  assert (Hin : e ∈ skipDownloaded h ft entries) by (rewrite E; left).
  apply skipDownloaded_elem in Hin as [Hin Hc]. rewrite (H e Hin) in Hc. done.
Qed.

(** A history file that begins with a line of [MaxScanTokenSize] bytes or
    more: nothing is read from it, whatever follows that line, and no entry
    is left out. *)
Lemma readHistory_too_long (s rest : string) :
  hasLF s = false -> MaxScanTokenSize <= Z.of_nat (String.length s) ->
  items (readHistory {| file := s +:+ rest |}) = ∅.
Proof.
  intros Hs Hl. unfold readHistory. simpl.
  rewrite scanLines_too_long; done.
Qed.

Lemma skipDownloaded_too_long (s rest : string) (ft : FileType)
    (entries : list CollectionEntry) :
  hasLF s = false -> MaxScanTokenSize <= Z.of_nat (String.length s) ->
  skipDownloaded (readHistory {| file := s +:+ rest |}) ft entries = entries.
Proof.
  intros Hs Hl. unfold skipDownloaded, containsDownload.
  rewrite (readHistory_too_long s rest Hs Hl).
  induction entries as [|e es IH]; [done|]. simpl.
  rewrite lookup_empty. simpl. by rewrite IH.
Qed.

(** One step: what it leaves in the history. *)
Lemma runBatch_history (d : Downloader) (order : rangeOrder)
    (attempt : downloadJob -> selectCase) (h : History)
    (es : list CollectionEntry) :
  let b := runBatch d order attempt (batchFuel (length es)) (startBatch h es) in
  wellFormed h ->
  Forall (fun e => lineSafe (md5Download (title e) (filetype d)) = true) es ->
  synced (history b)
  /\ items (history b)
     = recordAll (filetype d) (items h) (received (trace b))
  /\ map Entry (received (trace b)) ≡ₚ es.
Proof.
  intros b (Ht & Hsh & Hk) Hsafe.
  destruct (runBatch_start d order attempt h es) as (Hpc & I & Hj & Hw & Hr).
  fold b in Hpc, I, Hj, Hw, Hr.
  pose proof (inv_items _ _ _ _ _ I) as Hi.
  pose proof (inv_file _ _ _ _ _ I) as Hf. rewrite Hpc in Hf.
  pose proof (inv_conserve _ _ _ _ _ I) as Hc.
  pose proof (inv_pc _ _ _ _ _ I) as Hp. rewrite Hpc in Hp. destruct Hp as [Hs _].
  rewrite Hj, Hw, (inv_fifo _ _ _ _ _ I), Hr, app_nil_r, Hs in Hc. simpl in Hc.
  split; [|done].
  apply (synced_ext (writeOut order {| hfile := hfile h; items := items (history b) |})).
  { by rewrite writeOut_file, Hf. }
  { done. }
  apply writeOut_synced. split; [done|]. split; [done|]. simpl. intros k Hin.
  rewrite Hi in Hin. apply recordAll_lookup in Hin as [Hin|(r & Hin & Hs' & ->)].
  - by apply Hk.
  - assert (He : Entry r ∈ es).
    { rewrite <- Hc. apply list_elem_of_fmap. by exists r. }
    rewrite Forall_forall in Hsafe. specialize (Hsafe _ He).
    unfold lineSafe in Hsafe. apply andb_true_iff in Hsafe as [Hlf _].
    split; [by destruct (hasLF _)|]. by rewrite md5Download_length.
Qed.

Section TwoRuns.
Context (w : World) (d : Downloader) (opts : DownloadOpts).

Lemma scrollLoop_extends (n i : nat) (h : History) (tr : list event) :
  exists l, (scrollLoop w d opts n i h tr).2 = tr ++ l.
Proof.
  revert i h tr. induction n as [|n IH]; intros i h tr; simpl.
  - exists []. by rewrite app_nil_r.
  - destruct (Entries w i (Filter opts)) as [entries [e|]]; simpl.
    + exists []. by rewrite app_nil_r.
    + destruct (IH (S i)
        (history (runBatch d (rangeItems w) (selectOf w)
           (batchFuel (length (skipDownloaded h (filetype d) entries)))
           (startBatch h (skipDownloaded h (filetype d) entries))))
        (tr ++ trace (runBatch d (rangeItems w) (selectOf w)
           (batchFuel (length (skipDownloaded h (filetype d) entries)))
           (startBatch h (skipDownloaded h (filetype d) entries))))) as [l Hl].
      rewrite Hl, <- app_assoc. by eexists.
Qed.

(** The first run: what the history holds when the loop is left. *)
Lemma scrollLoop_first_run (n i : nat) (h : History) (tr : list event) :
  synced h ->
  (forall k e, e ∈ (Entries w (i + k) (Filter opts)).1 ->
     lineSafe (md5Download (title e) (filetype d)) = true) ->
  let r := scrollLoop w d opts n i h tr in
  synced r.1.2
  /\ (forall k, is_Some (items h !! k) -> is_Some (items r.1.2 !! k))
  /\ (Forall (fun j => Success j = true) (received r.2) ->
      forall k e, (k < turnsDone w opts n i)%nat ->
        e ∈ (Entries w (i + k) (Filter opts)).1 ->
        containsDownload r.1.2 (title e) (filetype d) = true).
Proof.
  revert i h tr. induction n as [|n IH]; intros i h tr Hsync Hsafe; simpl.
  - split; [done|]. split; [done|]. intros _ k e Hk. lia.
  - destruct (Entries w i (Filter opts)) as [entries [err|]] eqn:EE; simpl.
    + split; [done|]. split; [done|]. intros _ k e Hk. lia.
    + set (es := skipDownloaded h (filetype d) entries).
      set (b := runBatch d (rangeItems w) (selectOf w) (batchFuel (length es))
                  (startBatch h es)).
      assert (Hes : Forall (fun e => lineSafe (md5Download (title e) (filetype d)) = true) es).
      { apply Forall_forall. intros e [He _]%skipDownloaded_elem.
        apply (Hsafe O). by rewrite Nat.add_0_r, EE. }
      destruct (runBatch_history d (rangeItems w) (selectOf w) h es
                  (proj1 Hsync) Hes) as (Hsb & Hib & Hpb). fold b in Hsb, Hib, Hpb.
      destruct (IH (S i) (history b) (tr ++ trace b) Hsb) as (H1 & H2 & H3).
      { intros k e He. apply (Hsafe (S k)). by rewrite Nat.add_succ_r. }
      assert (Hmono : forall k, is_Some (items h !! k) ->
                                is_Some (items (history b) !! k)).
      { intros k Hk. rewrite Hib. apply recordAll_lookup. by left. }
      split; [done|]. split; [by auto|].
      intros Hall k e Hk He.
      destruct k as [|k].
      * rewrite Nat.add_0_r, EE in He. simpl in He.
        apply containsDownload_lookup. apply H2.
        destruct (containsDownload h (title e) (filetype d)) eqn:Ec.
        -- apply Hmono. by apply containsDownload_lookup.
        -- assert (Hin : e ∈ es) by (by apply skipDownloaded_elem).
           rewrite <- Hpb in Hin.
           apply list_elem_of_fmap in Hin as (r0 & -> & Hr0).
           rewrite Hib. apply recordAll_lookup. right. exists r0.
           split; [done|]. split; [|done].
           destruct (scrollLoop_extends n (S i) (history b) (tr ++ trace b))
             as [l Hl].
           rewrite Hl, !received_app in Hall.
           apply Forall_app in Hall as [Hall _].
           apply Forall_app in Hall as [_ Hall].
           rewrite Forall_forall in Hall. by apply Hall.
      * rewrite Nat.add_succ_r in He. apply (H3 Hall k e); [lia|done].
Qed.

(** The second run: nothing is enqueued when every entry is in the history. *)
Lemma scrollLoop_second_run (n i : nat) (h : History) (tr : list event) :
  (forall k e, (k < turnsDone w opts n i)%nat ->
     e ∈ (Entries w (i + k) (Filter opts)).1 ->
     containsDownload h (title e) (filetype d) = true) ->
  let r := scrollLoop w d opts n i h tr in
  sent r.2 = sent tr /\ attempted r.2 = attempted tr
  /\ started r.2 = started tr.
Proof.
  revert i h tr. induction n as [|n IH]; intros i h tr Hc; simpl; [done|].
  simpl in Hc.
  destruct (Entries w i (Filter opts)) as [entries [err|]] eqn:EE; simpl; [done|].
  simpl in Hc.
  rewrite skipDownloaded_nil.
  2:{ intros e He. apply (Hc O); [lia|]. by rewrite Nat.add_0_r, EE. }
  simpl.
  destruct (IH (S i) (writeOut (rangeItems w) h)
              (tr ++ [historyWriteOut; ScrollPage])) as (H1 & H2 & H3).
  { intros k e Hk He. apply (Hc (S k)); [lia|]. by rewrite Nat.add_succ_r. }
  simpl in H1, H2, H3.
  rewrite H1, H2, H3, sent_app, attempted_app, started_app. simpl.
  by rewrite !app_nil_r.
Qed.

End TwoRuns.

Lemma Download_setup_failed (d : Downloader) (opts : DownloadOpts) (w : World)
    (e : error) :
  setupError w = Some e -> Download d opts w = abort w e.
Proof.
  unfold setupError, Download, NewHistory, newHistoryFile.
  destruct (mkdirError (Mkdir_outDir w)); [by intros [= <-]|].
  destruct (mkdirError (Mkdir_bcdlDir w)); [by intros [= <-]|].
  destruct (OpenFile w); [by intros [= <-]|].
  destruct (playwrightInstall w); [by intros [= <-]|].
  destruct (playwrightRun w); [by intros [= <-]|].
  destruct (chromiumLaunch w); [by intros [= <-]|].
  destruct (NewAuthorizedBandcampContext w); [by intros [= <-]|].
  destruct (NewCollectionPage w); [by intros [= <-]|].
  destruct (collectionGoto w); [by intros [= <-]|]. done.
Qed.

Lemma Download_after_setup (d : Downloader) (opts : DownloadOpts) (w : World) :
  setupError w = None ->
  let r := scrollLoop w d opts (Z.to_nat (ScrollTimes w).1) O
             (readHistory {| file := downloaded w |}) [] in
  match r.1.1 with
  | Some e =>
      Download d opts w
      = {| returned := Some e; disk := file (hfile r.1.2); events := r.2 |}
  | None =>
      disk (Download d opts w) = file (hfile (writeOut (rangeItems w) r.1.2))
      /\ events (Download d opts w) = r.2 ++ [historyWriteOut]
  end.
Proof.
  unfold setupError, Download, NewHistory, newHistoryFile.
  destruct (mkdirError (Mkdir_outDir w)); [done|].
  destruct (mkdirError (Mkdir_bcdlDir w)); [done|].
  destruct (OpenFile w); [done|].
  destruct (playwrightInstall w); [done|].
  destruct (playwrightRun w); [done|].
  destruct (chromiumLaunch w); [done|].
  destruct (NewAuthorizedBandcampContext w); [done|].
  destruct (NewCollectionPage w); [done|].
  destruct (collectionGoto w); [done|]. intros _.
  destruct (AlbumCount w) as [count e1]. destruct (ScrollTimes w) as [n e2].
  simpl.
  destruct (scrollLoop w d opts (Z.to_nat n) 0
              (readHistory {| file := downloaded w |}) []) as [[e h'] tr].
  simpl. destruct e; [done|].
  destruct (browserClose w); [done|]. by destruct (pwStop w).
Qed.

Lemma setupError_withDisk (w : World) (f : string) :
  setupError (withDisk w f) = setupError w.
Proof. reflexivity. Qed.

Lemma turnsDone_withDisk (w : World) (opts : DownloadOpts) (f : string)
    (n i : nat) :
  turnsDone (withDisk w f) opts n i = turnsDone w opts n i.
Proof. revert i. induction n as [|n IH]; intros i; simpl; [done|]. by rewrite IH. Qed.

(** C4, as the code has it.  An entry whose fingerprint is in the history
    is left out before the jobs are made.  When the history file the first
    run finds ends its last line and has no line of [MaxScanTokenSize]
    (65536) bytes or more, the fingerprints of the entries listed hold no
    line feed and end in no carriage return, and every result the first run
    received is a success, a second run over the same collection, with the
    history file the first run has left, sends no job, starts no attempt and
    calls [OnStart] for no album. *)
Theorem second_run_enqueues_nothing (d : Downloader) (opts : DownloadOpts)
    (w : World) :
  terminated (downloaded w) = true ->
  shortLines (downloaded w) 0 = true ->
  (forall i e, e ∈ (Entries w i (Filter opts)).1 ->
     lineSafe (md5Download (title e) (filetype d)) = true) ->
  Forall (fun j => Success j = true) (received (events (Download d opts w))) ->
  let o2 := Download d opts (withDisk w (disk (Download d opts w))) in
  (forall h entries e,
     containsDownload h (title e) (filetype d) = true ->
     e ∉ skipDownloaded h (filetype d) entries)
  /\ sent (events o2) = []
  /\ attempted (events o2) = []
  /\ started (events o2) = [].
Proof.
  intros Hterm Hshort Hsafe Hall o2. split.
  { intros h entries e Hc [_ Hn]%skipDownloaded_elem. congruence. }
  destruct (setupError w) as [e|] eqn:Es.
  { unfold o2. rewrite (Download_setup_failed d opts w e Es). simpl.
    rewrite (Download_setup_failed d opts _ e); [done|].
    by rewrite setupError_withDisk. }
  set (n := Z.to_nat (ScrollTimes w).1).
  set (h0 := readHistory {| file := downloaded w |}).
  pose proof (Download_after_setup d opts w Es) as H1. simpl in H1. fold n h0 in H1.
  destruct (scrollLoop_first_run w d opts n O h0 [] (readHistory_synced _ Hterm Hshort))
    as (Hs1 & _ & Hc1).
  { intros k e. apply Hsafe. }
  (* the history the file of the first run was written from *)
  assert (Hx : exists hx, disk (Download d opts w) = file (hfile hx) /\ synced hx
             /\ forall k e, (k < turnsDone w opts n 0)%nat ->
                  e ∈ (Entries w k (Filter opts)).1 ->
                  containsDownload hx (title e) (filetype d) = true).
  { destruct (scrollLoop w d opts n 0 h0 []) as [[[e|] h1] tr1] eqn:E1;
      simpl in H1, Hs1, Hc1.
    - exists h1. rewrite H1 in Hall |- *. simpl in *. split; [done|].
      split; [done|]. intros k e0. by apply Hc1.
    - destruct H1 as [Hd He]. exists (writeOut (rangeItems w) h1).
      split; [done|]. split; [apply writeOut_synced, Hs1|].
      rewrite He, received_app in Hall. apply Forall_app in Hall as [Hall _].
      intros k e0. by apply Hc1. }
  destruct Hx as (hx & Hd & Hsx & Hcx).
  unfold o2. rewrite Hd. set (w2 := withDisk w (file (hfile hx))).
  pose proof (Download_after_setup d opts w2 Es) as H2. simpl in H2.
  destruct (scrollLoop_second_run w2 d opts n O
              (readHistory {| file := file (hfile hx) |}) []) as (Hsent & Hatt & Hst).
  { intros k e Hk He. unfold w2 in Hk. rewrite turnsDone_withDisk in Hk.
    apply containsDownload_lookup, readHistory_lookup. simpl.
    apply (proj2 Hsx).
    - apply containsDownload_lookup. by apply (Hcx k).
    - by apply (Hsafe k). }
  fold n in H2. simpl in Hsent, Hatt, Hst.
  destruct (scrollLoop w2 d opts n 0
              (readHistory {| file := file (hfile hx) |}) []) as [[[e|] h2] tr2];
    simpl in *.
  - by rewrite H2.
  - destruct H2 as [_ ->].
    rewrite sent_app, attempted_app, started_app, Hsent, Hatt, Hst. done.
Qed.

(** ** The properties at sample inputs *)

(** The barrier under the sample schedule. *)
Lemma batch_barrier_witness :
  let b := exec exampleDownloader defaultOrder exampleSchedule
             (startBatch (readHistory {| file := "" |})
                [exampleEntry "Low"; exampleEntry "Blue"]) in
  let tr1 := take 15 (trace b) in
  trace b = tr1 ++ ScrollPage :: []
  /\ (length (received tr1) = length (sent tr1)
      /\ map Entry (sent tr1) = [exampleEntry "Low"; exampleEntry "Blue"]
      /\ map Entry (received tr1) ≡ₚ map Entry (sent tr1)
      /\ Forall terminal (received tr1)
      /\ [] = ([] : list event)).
Proof.
  split; [vm_compute; reflexivity|].
  apply (batch_barrier exampleDownloader defaultOrder
           (readHistory {| file := "" |})
           [exampleEntry "Low"; exampleEntry "Blue"] exampleSchedule _ []).
  vm_compute; reflexivity.
Defined.

(** Under the sample schedule the first job is attempted twice and fails,
    the second succeeds, and each has one result. *)
Example exampleSchedule_trace :
  let b := exec exampleDownloader defaultOrder exampleSchedule
             (startBatch (readHistory {| file := "" |})
                [exampleEntry "Low"; exampleEntry "Blue"]) in
  pc b = scrolled
  /\ map (fun j => title (Entry j)) (attempted (trace b)) = ["Low"; "Blue"; "Low"]
  /\ map (fun j => (title (Entry j), Success j, retries j)) (emitted (trace b))
     = [("Blue", true, 0); ("Low", false, 1)]
  /\ callbacks (trace b) = [OnSuccess "Blue"; OnFailure "Low"].
Proof. vm_compute. done. Qed.

(** Two albums, both downloaded by the first run. *)
Lemma second_run_enqueues_nothing_witness :
  let w := exampleWorld [exampleEntry "Low"; exampleEntry "Blue"] (fun _ => allFine) in
  let o2 := Download exampleDownloader exampleOpts
              (withDisk w (disk (Download exampleDownloader exampleOpts w))) in
  (forall h entries e,
     containsDownload h (title e) (filetype exampleDownloader) = true ->
     e ∉ skipDownloaded h (filetype exampleDownloader) entries)
  /\ sent (events o2) = []
  /\ attempted (events o2) = []
  /\ started (events o2) = [].
Proof.
  apply (second_run_enqueues_nothing exampleDownloader exampleOpts
           (exampleWorld [exampleEntry "Low"; exampleEntry "Blue"] (fun _ => allFine))).
  - reflexivity.
  - reflexivity.
  - intros i e He. simpl in He.
    apply elem_of_cons in He as [->|He]; [vm_compute; reflexivity|].
    apply list_elem_of_singleton in He as ->. vm_compute; reflexivity.
  - vm_compute. repeat constructor.
Defined.

(** C4 as stated fails: after a first run in which the job of one album
    has failed, the second run over the same collection, with the history
    file of the first, sends a job for that album. *)
Lemma second_run_after_failure :
  let w := exampleWorld [exampleEntry "Low"; exampleEntry "Blue"] (failsFor "Blue") in
  let o1 := Download exampleDownloader exampleOpts w in
  let o2 := Download exampleDownloader exampleOpts (withDisk w (disk o1)) in
  returned o1 = None
  /\ callbacks (events o1) = [OnSuccess "Low"; OnFailure "Blue"]
  /\ map (fun j => title (Entry j)) (sent (events o2)) = ["Blue"]
  /\ sent (events o2) <> [].
Proof. vm_compute. repeat split; done. Qed.

(** C3 fails on the code.  The fingerprint of the album "Thriller" in the
    format mp3-320 begins with the byte 10, a line feed: [writeOut] writes
    it as a line of its own, [readHistory] reads an empty line and a line of
    15 bytes, and the history read back does not hold the fingerprint that
    the history written did. *)
Lemma history_reload_loses_thriller :
  let h := addItem (readHistory {| file := "" |}) "Thriller" MP3_320 in
  let h' := readHistory (hfile (writeOut defaultOrder h)) in
  containsDownload h "Thriller" MP3_320 = true
  /\ containsDownload h' "Thriller" MP3_320 = false
  /\ lineSafe (md5Download "Thriller" MP3_320) = false.
Proof. vm_compute. done. Qed.

(** In a whole run: the album is downloaded, the history is written, and
    the next run with that file downloads it again. *)
Lemma thriller_enqueued_again :
  let w := exampleWorld [exampleEntry "Thriller"] (fun _ => allFine) in
  let o1 := Download exampleDownloader exampleOpts w in
  let o2 := Download exampleDownloader exampleOpts (withDisk w (disk o1)) in
  returned o1 = None
  /\ callbacks (events o1) = [OnSuccess "Thriller"]
  /\ map (fun j => title (Entry j)) (sent (events o2)) = ["Thriller"].
Proof. vm_compute. done. Qed.

(** C6 fails on the code.  With errors from [page.filter],
    [page.AlbumCount] and [page.ScrollTimes], [Download] goes on, downloads
    the album listed and returns no error. *)
Lemma filter_error_ignored :
  let w := withListingErrors
             (exampleWorld [exampleEntry "Low"] (fun _ => allFine))
             (fun _ => Some (driverError "Timeout 10000ms exceeded"))
             (Some (driverError "count not found"))
             (Some (driverError "button not found")) in
  let o := Download exampleDownloader exampleOpts w in
  pageFilter w (Filter exampleOpts) <> None
  /\ (AlbumCount w).2 <> None
  /\ (ScrollTimes w).2 <> None
  /\ returned o = None
  /\ callbacks (events o) = [OnSuccess "Low"]
  /\ scrolls (events o) = 1%nat.
Proof. vm_compute. repeat split; done. Qed.

(** A job whose attempts all time out, in a whole run: six attempts, one
    result, the failure callback, and no error of the run. *)
Example always_timing_out_job_run :
  let w := withAttempts (exampleWorld [exampleEntry "Low"] (fun _ => allFine))
             (fun _ => allFine) (fun _ => true) in
  let o := Download exampleDownloader exampleOpts w in
  returned o = None
  /\ map jobTimeout (attempted (events o))
     = [4 * Minute; 6 * Minute; 8 * Minute; 10 * Minute; 12 * Minute; 14 * Minute]
  /\ map (fun j => (Success j, err j, retries j)) (received (events o))
     = [(false, Some errMaxRetries, 5)]
  /\ callbacks (events o) = [OnFailure "Low"]
  /\ scrolls (events o) = 1%nat.
Proof. vm_compute. done. Qed.

(** The options of [DefaultDownloader] carry 3 minutes; the job has 4. *)
Example default_timeout_unused :
  match DefaultDownloader (NewUser "fan" "cookie") "music" with
  | inl d =>
      timeout d = 3 * Minute
      /\ map jobTimeout
           (sent (events (Download d exampleOpts
                            (exampleWorld [exampleEntry "Low"] (fun _ => allFine)))))
         = [4 * Minute]
  | inr _ => False
  end.
Proof. vm_compute. done. Qed.

(** The error of [page.Entries] does end the run, with the hint at the
    identity cookie. *)
Lemma Entries_error_aborts (d : Downloader) (opts : DownloadOpts) (w : World)
    (entries : list CollectionEntry) (e : error) :
  setupError w = None ->
  0 < (ScrollTimes w).1 ->
  Entries w O (Filter opts) = (entries, Some e) ->
  Download d opts w
  = {| returned := Some (errCollection e); disk := downloaded w; events := [] |}.
Proof.
  intros Hs Hn He. pose proof (Download_after_setup d opts w Hs) as H.
  simpl in H. destruct (Z.to_nat (ScrollTimes w).1) as [|n] eqn:En; [lia|].
  simpl in H. rewrite He in H. simpl in H. done.
Qed.

(** Equal fingerprints of one title for two file types are a collision of
    the digest: two different messages with one sum. *)
Lemma fingerprint_collision (title : string) (ft1 ft2 : FileType) :
  ft1 <> ft2 -> md5Download title ft1 = md5Download title ft2 ->
  exists m1 m2, m1 <> m2
    /\ string_of_bytes (MD5.sum m1) = string_of_bytes (MD5.sum m2).
Proof.
  intros Hne Heq. rewrite !md5Download_concat in Heq.
  exists (bytes_of_string (title +:+ ft1)), (bytes_of_string (title +:+ ft2)).
  split; [|done]. intros H. by apply md5Download_message_inj in H.
Qed.

(** One job whose six attempts time out, with the first worker. *)
Example pool_timed_out_jobs_example :
  let acts :=
    [orchestrator; orchestrator;
     workerRecv 0; workerSelects 0 ctxDone; workerRecv 0; workerSelects 0 ctxDone;
     workerRecv 0; workerSelects 0 ctxDone; workerRecv 0; workerSelects 0 ctxDone;
     workerRecv 0; workerSelects 0 ctxDone; workerRecv 0; workerSelects 0 ctxDone;
     orchestrator; orchestrator] in
  let b := exec exampleDownloader defaultOrder acts
             (startBatch (readHistory {| file := "" |}) [exampleEntry "Low"]) in
  allTimeOut exampleDownloader defaultOrder (exampleEntry "Low") acts
    (startBatch (readHistory {| file := "" |}) [exampleEntry "Low"])
  /\ pc b = scrolled
  /\ map jobTimeout (attempted (trace b))
     = [4 * Minute; 6 * Minute; 8 * Minute; 10 * Minute; 12 * Minute; 14 * Minute]
  /\ callbacks (trace b) = [OnFailure "Low"].
Proof.
  split; [|vm_compute; done].
  vm_compute. repeat split; reflexivity.
Qed.

(** * More of the code *)

Set Warnings "-clear-no-such-hyp".


(** ** Options *)

Lemma builtinOption_keeps (f : Downloader -> Downloader) (d : Downloader) :
  builtinOption f ->
  user (f d) = user d /\ dirPath (f d) = dirPath d
  /\ (headless d = true -> headless (f d) = true)
  /\ (headless (f d) = true -> headless d = true \/ f = WithHeadless).
Proof.
  intros [[c ->]|[[t ->]|[-> |[ft ->]]]]; simpl; auto.
Qed.

Lemma foldl_builtin (options : list (Downloader -> Downloader)) (d : Downloader) :
  Forall builtinOption options ->
  let d' := foldl (fun d f => f d) d options in
  user d' = user d /\ dirPath d' = dirPath d
  /\ (headless d' = true <-> headless d = true \/ WithHeadless ∈ options).
Proof.
  intros H. revert d. induction H as [|f l Hf _ IH]; intros d; simpl.
  - split; [done|]. split; [done|]. split; [by left|].
    intros [H0| H0]; [done|by apply elem_of_nil in H0].
  - destruct (IH (f d)) as (H1 & H2 & H3).
    destruct (builtinOption_keeps f d Hf) as (K1 & K2 & K3 & K4).
    rewrite H1, H2, H3. split; [done|]. split; [done|]. split.
    + intros [Hh|Hin].
      * destruct (K4 Hh) as [Hd| ->]; [by left|]. right. by left.
      * right. by right.
    + intros [Hh|Hin]; [left; by apply K3|].
      apply elem_of_cons in Hin as [<- |Hin]; [by left|by right].
Qed.

(** X1.  [NewDownloader] refuses an empty directory path and nothing else;
    with the options of the package it keeps the user and the path it is
    given, is headless exactly when [WithHeadless] is among the options,
    and an option applied last decides its field and leaves the others. *)
Theorem NewDownloader_options (u : User) (dir : string)
    (options : list (Downloader -> Downloader)) :
  Forall builtinOption options ->
  match NewDownloader u dir options with
  | inr e => dir = "" /\ e = Errorf "Directory path cannot be empty" []
  | inl d =>
      dir <> "" /\ user d = u /\ dirPath d = dir
      /\ (headless d = true <-> WithHeadless ∈ options)
      /\ (forall t, exists d',
            NewDownloader u dir (options ++ [WithTimeout t]) = inl d'
            /\ timeout d' = t /\ filetype d' = filetype d
            /\ headless d' = headless d /\ context d' = context d)
      /\ (forall ft, exists d',
            NewDownloader u dir (options ++ [WithFiletype ft]) = inl d'
            /\ filetype d' = ft /\ timeout d' = timeout d
            /\ headless d' = headless d /\ context d' = context d)
  end.
Proof.
  intros H. unfold NewDownloader.
  destruct (String.eqb_spec dir "") as [->|Hne]; [done|].
  set (d0 := {| user := u; dirPath := dir; context := None; timeout := 0;
                headless := false; filetype := "" |}).
  destruct (foldl_builtin options d0 H) as (H1 & H2 & H3). simpl in H1, H2, H3.
  split; [done|]. split; [done|]. split; [done|]. split.
  { rewrite H3. split; [intros [|]; done|by right]. }
  split.
  - intros t. eexists. split; [reflexivity|]. rewrite foldl_app. by simpl.
  - intros ft. eexists. split; [reflexivity|]. rewrite foldl_app. by simpl.
Qed.

Lemma NewDownloader_options_witness :
  match NewDownloader (NewUser "fan" "cookie") "music"
          [WithHeadless; WithTimeout Minute] with
  | inr e => "music" = "" /\ e = Errorf "Directory path cannot be empty" []
  | inl d =>
      "music" <> "" /\ user d = NewUser "fan" "cookie" /\ dirPath d = "music"
      /\ (headless d = true <-> WithHeadless ∈ [WithHeadless; WithTimeout Minute])
      /\ (forall t, exists d',
            NewDownloader (NewUser "fan" "cookie") "music"
              ([WithHeadless; WithTimeout Minute] ++ [WithTimeout t]) = inl d'
            /\ timeout d' = t /\ filetype d' = filetype d
            /\ headless d' = headless d /\ context d' = context d)
      /\ (forall ft, exists d',
            NewDownloader (NewUser "fan" "cookie") "music"
              ([WithHeadless; WithTimeout Minute] ++ [WithFiletype ft]) = inl d'
            /\ filetype d' = ft /\ timeout d' = timeout d
            /\ headless d' = headless d /\ context d' = context d)
  end.
Proof.
  apply (NewDownloader_options (NewUser "fan" "cookie") "music"
           [WithHeadless; WithTimeout Minute]).
  apply Forall_cons_2; [right; right; by left|].
  apply Forall_cons_2; [right; left; by exists Minute|]. apply Forall_nil_2.
Defined.

(** ** The file type flag *)

Lemma setLoop_Some (s ft : string) (l : list string) :
  FileTypeFlag.setLoop s l = Some ft -> ft = s /\ s ∈ l.
Proof.
  induction l as [|x l IH]; simpl; [done|].
  destruct (String.eqb_spec s x) as [->|Hne].
  - intros [= ->]. split; [done|]. by left.
  - intros H. destruct (IH H) as [-> Hin]. split; [done|]. by right.
Qed.

Lemma setLoop_None (s : string) (l : list string) :
  FileTypeFlag.setLoop s l = None -> s ∉ l.
Proof.
  induction l as [|x l IH]; simpl; [intros _ []%elem_of_nil|].
  destruct (String.eqb_spec s x) as [->|Hne]; [done|].
  intros H [->|Hin]%elem_of_cons; [done|]. by apply IH.
Qed.

(** X2.  [FileTypeFlag.Set] takes a string exactly when it is one of
    [internal.AllFileTypes], and then the flag reads back as that string;
    otherwise the flag is left as it was and the error names the string and
    the list of the valid file types. *)
Theorem FileTypeFlag_Set_valid (ftf : FileTypeFlag.t) (s : string) :
  match FileTypeFlag.Set_ ftf s with
  | (ftf', None) =>
      s ∈ AllFileTypes /\ FileTypeFlag.String_ ftf' = s
  | (ftf', Some e) =>
      (s ∉ AllFileTypes) /\ ftf' = ftf
      /\ e = Errorf "%s is not in list of valid filetypes %s"
               [argString s;
                argString "[mp3-320 mp3-v0 flac aac-hi vorbis alac wave aiff-lossless]"]
  end.
Proof.
  unfold FileTypeFlag.Set_.
  destruct (FileTypeFlag.setLoop s AllFileTypes) as [ft|] eqn:E.
  - apply setLoop_Some in E as [-> Hin]. done.
  - apply setLoop_None in E. done.
Qed.

(** ** [main] *)

Lemma Download_sent_fresh (d : Downloader) (opts : DownloadOpts) (w : World) :
  Forall (fun j => j = newJob d (Entry j)) (sent (events (Download d opts w))).
Proof.
  apply (Download_events w d opts
           (fun tr => Forall (fun j => j = newJob d (Entry j)) (sent tr)));
    try done.
  - intros l1 l2 H1 H2. rewrite sent_app. by apply Forall_app.
  - intros h es. destruct (runBatch_start d (rangeItems w) (selectOf w) h es)
      as (_ & I & _). apply (inv_fresh _ _ _ _ _ I).
Qed.

(** X3.  [main] exits with status 0 exactly when the dialogue has
    returned no error, a directory is chosen and [Download] returns none;
    it exits with 1 otherwise, and calls [Download] only with a directory.
    Every job of the run carries the file type and the directory chosen in
    the dialogue, and the timeout of 4 minutes. *)
Theorem main_uses_selection (selected : tui.Outputs) (tuiErr : option error)
    (w : World) :
  let m := main (selected, tuiErr) w in
  (exitStatus m = 0 <->
     tuiErr = None /\ tui.Directory selected <> ""
     /\ exists o, ran m = Some o /\ returned o = None)
  /\ (exitStatus m = 0 \/ exitStatus m = 1)
  /\ (exitStatus m = 0 <-> fatal m = None)
  /\ (ran m = None <-> tuiErr <> None \/ tui.Directory selected = "")
  /\ (forall o, ran m = Some o ->
        Forall (fun j => jobFiletype j = tui.FileType selected
                         /\ DownloadDir j = tui.Directory selected
                         /\ jobTimeout j = 4 * Minute)
          (sent (events o))).
Proof.
  unfold main. destruct tuiErr as [e|]; simpl.
  { repeat split; try done; try naive_solver. }
  unfold DefaultDownloader, NewDownloader.
  destruct (String.eqb_spec (tui.Directory selected) "") as [E|E]; simpl.
  { repeat split; try done; try naive_solver. }
  set (dl := WithFiletype _ _).
  assert (Hsent : Forall (fun j => jobFiletype j = tui.FileType selected
                           /\ DownloadDir j = tui.Directory selected
                           /\ jobTimeout j = 4 * Minute)
            (sent (events (Download dl {| Filter := tui.Filter selected |} w)))).
  { eapply Forall_impl; [apply Download_sent_fresh|]. intros j ->. done. }
  destruct (returned (Download dl _ w)) as [e|] eqn:Er; simpl;
    repeat split; try done; try naive_solver.
Qed.

(** ** The calls of [processJob] *)

(** X4.  The calls of [processJob] to the driver: the page of the entry is
    asked for first; it is closed, last, exactly when it has been created;
    the file type selected is that of the job, after a [Goto] without
    error; and the file is asked for with the directory of the job and its
    timeout in milliseconds, only when the file type has been selected. *)
Theorem processJobCalls_order (job : downloadJob) (page : pageReplies) :
  let calls := (processJobCalls job page).1 in
  (processJobCalls job page).2 = processJob job page
  /\ head calls = Some (callNewCollectionEntryPage (Entry job))
  /\ (callClose ∈ calls <-> NewCollectionEntryPage page = None)
  /\ (NewCollectionEntryPage page = None -> last calls = Some callClose)
  /\ (callGoto ∈ calls <-> NewCollectionEntryPage page = None)
  /\ (forall ft, callSelectFileType ft ∈ calls <->
        ft = jobFiletype job
        /\ NewCollectionEntryPage page = None /\ Goto page = None)
  /\ (forall dir ms, callDownloadFile dir ms ∈ calls <->
        dir = DownloadDir job /\ ms = Milliseconds (jobTimeout job)
        /\ NewCollectionEntryPage page = None /\ Goto page = None
        /\ SelectFileType page = None).
Proof.
  unfold processJobCalls, processJob.
  destruct (NewCollectionEntryPage page) as [e1|];
    [|destruct (Goto page) as [e2|];
      [|destruct (SelectFileType page) as [e3|];
        [|destruct (DownloadFile page) as [e4|]]]]; simpl;
    split_and!; try done; intros;
    rewrite ?elem_of_cons, ?elem_of_nil; naive_solver.
Qed.


Lemma list_ascii_of_string_app (s t : string) :
  list_ascii_of_string (s +:+ t)
  = list_ascii_of_string s ++ list_ascii_of_string t.
Proof.
  induction s as [|a s IH]; [done|]. rewrite string_app_cons. simpl.
  by rewrite IH.
Qed.

Lemma list_ascii_of_string_inj (s t : string) :
  list_ascii_of_string s = list_ascii_of_string t -> s = t.
Proof.
  intros H. rewrite <- (string_of_list_ascii_of_string s),
    <- (string_of_list_ascii_of_string t). by rewrite H.
Qed.

(** X5.  The message that is hashed tells the title from the file type,
    for the file types of internal/filetype.go: none of them ends in
    another.  With other strings for the file type it does not: the
    fingerprint is that of the concatenation. *)
Theorem fingerprint_message_injective (t1 t2 : string) (ft1 ft2 : FileType) :
  ft1 ∈ AllFileTypes -> ft2 ∈ AllFileTypes ->
  (t1 +:+ ft1 = t2 +:+ ft2 -> t1 = t2 /\ ft1 = ft2)
  /\ md5Download t1 ft1 = string_of_bytes (MD5.sum (bytes_of_string (t1 +:+ ft1)))
  /\ md5Download (t1 +:+ "f") "lac" = md5Download t1 "flac".
Proof.
  intros H1 H2. split; [|split].
  - intros Heq.
    apply (f_equal (fun s => rev (list_ascii_of_string s))) in Heq.
    rewrite !list_ascii_of_string_app, !rev_app_distr in Heq.
    assert (Hinj : forall l1 l2 : list ascii,
              rev (list_ascii_of_string t1) = rev (list_ascii_of_string t2) ->
              t1 = t2).
    { intros _ _ H. apply list_ascii_of_string_inj.
      by rewrite <- (rev_involutive (list_ascii_of_string t1)), H, rev_involutive. }
    unfold AllFileTypes in H1, H2.
    repeat (apply elem_of_cons in H1 as [->|H1]);
      try (by apply elem_of_nil in H1);
      repeat (apply elem_of_cons in H2 as [->|H2]);
      try (by apply elem_of_nil in H2);
      simpl in Heq; try discriminate Heq;
      (split; [|done]); apply (Hinj [] []); congruence.
  - apply md5Download_concat.
  - rewrite !md5Download_concat. by rewrite string_app_assoc.
Qed.

Lemma fingerprint_message_injective_witness :
  ("X" +:+ FLAC = "X" +:+ ALAC -> "X" = "X" /\ FLAC = ALAC)
  /\ md5Download "X" FLAC
     = string_of_bytes (MD5.sum (bytes_of_string ("X" +:+ FLAC)))
  /\ md5Download ("X" +:+ "f") "lac" = md5Download "X" "flac".
Proof.
  apply (fingerprint_message_injective "X" "X" FLAC ALAC).
  - unfold AllFileTypes. rewrite !elem_of_cons. right. right. by left.
  - unfold AllFileTypes. rewrite !elem_of_cons. do 5 right. by left.
Defined.


(** ** More of the history *)

Lemma foldl_insert_true (l : list string) (m : gmap string bool) (k : string)
    (v : bool) :
  (forall k' v', m !! k' = Some v' -> v' = true) ->
  foldl (fun m text => <[text := true]> m) m l !! k = Some v -> v = true.
Proof.
  revert m. induction l as [|t l IH]; intros m Hm; simpl; [apply Hm|].
  apply IH. intros k' v'. rewrite lookup_insert.
  case_decide; [by intros [= <-]|apply Hm].
Qed.

Lemma readHistory_true (f : historyFile) (k : string) (v : bool) :
  items (readHistory f) !! k = Some v -> v = true.
Proof. unfold readHistory; simpl. by apply foldl_insert_true. Qed.

(** X6.  Reading two files one after the other: the history of the whole
    is the union, a file written twice reads as the file written once, and
    every value stored is [true]. *)
Theorem readHistory_concat (f g : string) (k : string) :
  terminated f = true -> shortLines f 0 = true ->
  (is_Some (items (readHistory {| file := f +:+ g |}) !! k)
   <-> is_Some (items (readHistory {| file := f |}) !! k)
       \/ is_Some (items (readHistory {| file := g |}) !! k))
  /\ (is_Some (items (readHistory {| file := f +:+ f |}) !! k)
      <-> is_Some (items (readHistory {| file := f |}) !! k))
  /\ (forall v, items (readHistory {| file := f +:+ g |}) !! k = Some v ->
                v = true).
Proof.
  intros Ht Hs. split; [|split; [|apply readHistory_true]].
  - rewrite !readHistory_lookup. simpl.
    by rewrite scanLines_terminated_app, elem_of_app by done.
  - rewrite !readHistory_lookup. simpl.
    rewrite scanLines_terminated_app, elem_of_app by done. naive_solver.
Qed.

Lemma readHistory_concat_witness :
  (is_Some (items (readHistory {| file := "ab" +:+ String LF "" +:+ "cd" |}) !! "cd")
   <-> is_Some (items (readHistory {| file := "ab" +:+ String LF "" |}) !! "cd")
       \/ is_Some (items (readHistory {| file := "cd" |}) !! "cd"))
  /\ (is_Some (items (readHistory
        {| file := ("ab" +:+ String LF "") +:+ ("ab" +:+ String LF "") |}) !! "cd")
      <-> is_Some (items (readHistory {| file := "ab" +:+ String LF "" |}) !! "cd"))
  /\ (forall v, items (readHistory {| file := "ab" +:+ String LF "" +:+ "cd" |})
                  !! "cd" = Some v -> v = true).
Proof.
  apply (readHistory_concat ("ab" +:+ String LF "") "cd" "cd"); reflexivity.
Defined.

(** X7.  [addItem] and [containsDownload]: an item added is found, nothing
    else changes, adding twice is adding once, and the order of two
    additions does not matter; the file is not touched. *)
Theorem addItem_contains (h : History) (t t' : string) (ft ft' : FileType) :
  (containsDownload (addItem h t ft) t' ft' = true
   <-> containsDownload h t' ft' = true
       \/ md5Download t' ft' = md5Download t ft)
  /\ addItem (addItem h t ft) t ft = addItem h t ft
  /\ addItem (addItem h t ft) t' ft' = addItem (addItem h t' ft') t ft
  /\ hfile (addItem h t ft) = hfile h.
Proof.
  split; [|split; [|split; [|done]]].
  - rewrite !containsDownload_lookup. unfold addItem; simpl.
    rewrite lookup_insert. case_decide as E.
    + split; [by right|by eexists].
    + split; [by left|]. intros [|]; [done|congruence].
  - unfold addItem; simpl. f_equal. apply insert_insert_eq.
  - unfold addItem; simpl. f_equal.
    destruct (decide (md5Download t ft = md5Download t' ft')) as [->|Hne].
    + done.
    + by apply insert_insert_ne.
Qed.

Lemma keysOf_elem (order : rangeOrder) (m : gmap string bool) (k : string) :
  k ∈ order m <-> is_Some (m !! k).
Proof.
  rewrite (keysOf_perm order), list_elem_of_fmap. split.
  - intros ([k' v] & -> & Hv). apply elem_of_map_to_list in Hv. by eexists.
  - intros [v Hv]. exists (k, v). split; [done|]. by apply elem_of_map_to_list.
Qed.

(** The lines of the file after [writeOut]. *)
Lemma writeOut_lines (order : rangeOrder) (h : History) :
  wellFormed h ->
  scanLines (file (hfile (writeOut order h))) ""
  = scanLines (file (hfile h)) "" ++ (dropCR <$> order (items h)).
Proof.
  intros Hwf. rewrite writeOut_file.
  rewrite scanLines_terminated_app by apply Hwf.
  by rewrite scanLines_historyLines by by apply wellFormed_keysOf.
Qed.

Lemma reload_lookup (order : rangeOrder) (h : History) (k : string) :
  wellFormed h ->
  is_Some (items (readHistory (hfile (writeOut order h))) !! k)
  <-> k ∈ scanLines (file (hfile h)) ""
      \/ exists k0, is_Some (items h !! k0) /\ k = dropCR k0.
Proof.
  intros Hwf. etrans; [apply readHistory_lookup|].
  rewrite (writeOut_lines order h Hwf).
  rewrite elem_of_app. split.
  - intros [Hl|Hr]; [by left|right].
    apply list_elem_of_fmap in Hr as (k0 & -> & Hk0). exists k0.
    split; [|done]. by apply (keysOf_elem order).
  - intros [Hl|(k0 & Hk0 & ->)]; [by left|right].
    apply list_elem_of_fmap. exists k0. split; [done|].
    by apply (keysOf_elem order).
Qed.

Lemma readHistory_wellFormed (contents : string) :
  terminated contents = true -> shortLines contents 0 = true ->
  wellFormed (readHistory {| file := contents |}).
Proof. intros H1 H2. by apply readHistory_synced. Qed.

Lemma addItem_wellFormed (h : History) (t : string) (ft : FileType) :
  wellFormed h -> hasLF (md5Download t ft) = false ->
  wellFormed (addItem h t ft).
Proof.
  intros (Ht & Hs & Hk) Hlf. split; [done|]. split; [done|].
  intros k. unfold addItem; simpl.
  rewrite lookup_insert. case_decide as E; [|apply Hk].
  subst. intros _. split; [done|]. by rewrite md5Download_length.
Qed.

Lemma recordTitles_wellFormed (h : History) (ft : FileType) (ts : list string) :
  wellFormed h -> Forall (fun t => hasLF (md5Download t ft) = false) ts ->
  wellFormed (recordTitles h ft ts).
Proof.
  intros Hwf Hts. revert h Hwf. induction Hts as [|t ts Ht _ IH]; intros h Hwf.
  - done.
  - apply IH. by apply addItem_wellFormed.
Qed.

Lemma recordTitles_file (h : History) (ft : FileType) (ts : list string) :
  hfile (recordTitles h ft ts) = hfile h.
Proof. revert h. induction ts as [|t ts IH]; intros h; [done|]. simpl. by rewrite IH. Qed.

Lemma recordTitles_lookup (h : History) (ft : FileType) (ts : list string)
    (k : string) :
  is_Some (items (recordTitles h ft ts) !! k)
  <-> is_Some (items h !! k) \/ exists t, t ∈ ts /\ k = md5Download t ft.
Proof.
  revert h. induction ts as [|t ts IH]; intros h.
  - split; [by left|]. intros [|(t & Ht%elem_of_nil & _)]; done.
  - change (recordTitles h ft (t :: ts))
      with (recordTitles (addItem h t ft) ft ts).
    rewrite IH. unfold addItem; simpl. rewrite lookup_insert. split.
    + intros [Hk|(t' & Hin & ->)].
      * case_decide as E; [|by left]. right. exists t. split; [by left|done].
      * right. exists t'. split; [by right|done].
    + intros [Hk|(t' & Hin & ->)].
      * left. case_decide; [by eexists|done].
      * apply elem_of_cons in Hin as [->|Hin].
        -- left. case_decide; [by eexists|done].
        -- right. by exists t'.
Qed.

Lemma recordTitles_true (h : History) (ft : FileType) (ts : list string) :
  (forall k v, items h !! k = Some v -> v = true) ->
  forall k v, items (recordTitles h ft ts) !! k = Some v -> v = true.
Proof.
  revert h. induction ts as [|t ts IH]; intros h Hh; [done|].
  apply IH. intros k v. unfold addItem; simpl. rewrite lookup_insert.
  case_decide; [by intros [= <-]|apply Hh].
Qed.

(** X8.  What a reload finds after [writeOut]: the lines the file had, and
    the fingerprints added, each without a carriage return at its end. *)
Theorem reload_after_writeOut (order : rangeOrder) (f : string)
    (ft : FileType) (ts : list string) (k : string) :
  terminated f = true -> shortLines f 0 = true ->
  Forall (fun t => hasLF (md5Download t ft) = false) ts ->
  let h := recordTitles (readHistory {| file := f |}) ft ts in
  is_Some (items (readHistory (hfile (writeOut order h))) !! k)
  <-> k ∈ scanLines f ""
      \/ (exists l, l ∈ scanLines f "" /\ k = dropCR l)
      \/ (exists t, t ∈ ts /\ k = dropCR (md5Download t ft)).
Proof.
  intros Ht Hs Hts h.
  assert (Hwf : wellFormed h).
  { apply recordTitles_wellFormed; [by apply readHistory_wellFormed|done]. }
  rewrite (reload_lookup order h k Hwf).
  unfold h at 1. rewrite recordTitles_file. simpl. split.
  - intros [Hl|(k0 & Hk0 & ->)]; [by left|].
    apply recordTitles_lookup in Hk0 as [Hk0|(t & Hin & ->)].
    + right. left. exists k0. split; [|done].
      by apply (proj1 (readHistory_lookup _ _)) in Hk0.
    + right. right. by exists t.
  - intros [Hl|[(l & Hl & ->)|(t & Hin & ->)]]; [by left| |].
    + right. exists l. split; [|done]. apply recordTitles_lookup. left.
      by apply readHistory_lookup.
    + right. exists (md5Download t ft). split; [|done].
      apply recordTitles_lookup. right. by exists t.
Qed.

Lemma reload_after_writeOut_witness :
  let f := "ab" +:+ String LF "" in
  let h := recordTitles (readHistory {| file := f |}) MP3_320 ["Low"; "Blue"] in
  is_Some (items (readHistory (hfile (writeOut defaultOrder h)))
             !! md5Download "Low" MP3_320)
  <-> md5Download "Low" MP3_320 ∈ scanLines f ""
      \/ (exists l, l ∈ scanLines f "" /\ md5Download "Low" MP3_320 = dropCR l)
      \/ (exists t, t ∈ ["Low"; "Blue"]
                    /\ md5Download "Low" MP3_320 = dropCR (md5Download t MP3_320)).
Proof.
  apply (reload_after_writeOut defaultOrder ("ab" +:+ String LF "") MP3_320
           ["Low"; "Blue"] (md5Download "Low" MP3_320)).
  - reflexivity.
  - reflexivity.
  - apply Forall_cons_2; [vm_compute; reflexivity|].
    apply Forall_cons_2; [vm_compute; reflexivity|]. apply Forall_nil_2.
Defined.

(** [writeOut], then [readHistory]: the same items, when every key is on a
    line of its own unchanged. *)
Lemma flush_then_load (order : rangeOrder) (h : History) :
  wellFormed h ->
  (forall k, is_Some (items h !! k) -> lineSafe k = true) ->
  (forall k, k ∈ scanLines (file (hfile h)) "" -> is_Some (items h !! k)) ->
  (forall k v, items h !! k = Some v -> v = true) ->
  items (readHistory (hfile (writeOut order h))) = items h.
Proof.
  intros Hwf Hsafe Hfile Htrue. apply map_eq. intros k.
  destruct (items (readHistory (hfile (writeOut order h))) !! k) as [v|] eqn:E1;
    destruct (items h !! k) as [v'|] eqn:E2; try done.
  - by rewrite (readHistory_true _ _ _ E1), (Htrue _ _ E2).
  - assert (Hs : is_Some (items (readHistory (hfile (writeOut order h))) !! k))
      by by eexists.
    apply (reload_lookup order h k Hwf) in Hs.
    destruct Hs as [Hs|(k0 & Hk0 & ->)].
    + apply Hfile in Hs. rewrite E2 in Hs. by destruct Hs.
    + specialize (Hsafe _ Hk0). unfold lineSafe in Hsafe.
      apply andb_true_iff in Hsafe as [_ Hcr].
      rewrite dropCR_safe in E2 by by destruct (endsWith CR k0).
      rewrite E2 in Hk0. by destruct Hk0.
  - assert (Hs : is_Some (items (readHistory (hfile (writeOut order h))) !! k)).
    { apply (reload_lookup order h k Hwf). right. exists k.
      split; [by eexists|].
      assert (Hk : is_Some (items h !! k)) by by eexists.
      specialize (Hsafe _ Hk). unfold lineSafe in Hsafe.
      apply andb_true_iff in Hsafe as [_ Hcr].
      symmetry. apply dropCR_safe. by destruct (endsWith CR k). }
    rewrite E1 in Hs. by destruct Hs.
Qed.

(** X9.  The round trip.  A history read from a file and extended by
    successes is found again when it is written out and read back, provided
    the file ends its last line and has no line of [MaxScanTokenSize] bytes,
    the fingerprints added hold no line feed and end in no carriage return,
    and no line of the file ends in two carriage returns. *)
Theorem history_round_trip (order : rangeOrder) (f : string) (ft : FileType)
    (ts : list string) :
  terminated f = true -> shortLines f 0 = true ->
  Forall (fun l => endsWith CR l = false) (scanLines f "") ->
  Forall (fun t => lineSafe (md5Download t ft) = true) ts ->
  let h := recordTitles (readHistory {| file := f |}) ft ts in
  items (readHistory (hfile (writeOut order h))) = items h.
Proof.
  intros Ht Hs Hcr Hts h. rewrite Forall_forall in Hcr, Hts.
  apply flush_then_load.
  - apply recordTitles_wellFormed; [by apply readHistory_wellFormed|].
    apply Forall_forall. intros t Hin. specialize (Hts t Hin).
    unfold lineSafe in Hts. apply andb_true_iff in Hts as [Hlf _].
    by destruct (hasLF _).
  - intros k Hk. apply recordTitles_lookup in Hk as [Hk|(t & Hin & ->)].
    + apply (proj1 (readHistory_lookup _ _)) in Hk. simpl in Hk.
      unfold lineSafe. rewrite (Hcr k Hk).
      by rewrite (scanLines_noLF f "" k eq_refl Hk).
    + by apply Hts.
  - unfold h. rewrite recordTitles_file. simpl. intros k Hk.
    apply recordTitles_lookup. left. by apply readHistory_lookup.
  - apply recordTitles_true. intros k v. apply readHistory_true.
Qed.

Lemma history_round_trip_witness :
  let f := "ab" +:+ String LF "" in
  let h := recordTitles (readHistory {| file := f |}) MP3_320 ["Low"; "Blue"] in
  items (readHistory (hfile (writeOut defaultOrder h))) = items h.
Proof.
  apply (history_round_trip defaultOrder ("ab" +:+ String LF "") MP3_320
           ["Low"; "Blue"]).
  - reflexivity.
  - reflexivity.
  - vm_compute. repeat constructor.
  - apply Forall_cons_2; [vm_compute; reflexivity|].
    apply Forall_cons_2; [vm_compute; reflexivity|]. apply Forall_nil_2.
Defined.









(** ** More of the pool *)

Lemma workerSelect_toResults (job r : downloadJob) (c : selectCase) :
  workerSelect job c = toResults r ->
  retries r = retries job /\ jobTimeout r = jobTimeout job
  /\ Entry r = Entry job /\ DownloadDir r = DownloadDir job
  /\ jobFiletype r = jobFiletype job.
Proof.
  destruct c as [|[e|]]; simpl; [|by intros [= <-]..].
  unfold timedOut. destruct (retries job =? MAX_RETRIES); [|done].
  by intros [= <-].
Qed.

Section Pacing.
Context (d : Downloader) (order : rangeOrder) (h0 : History)
        (es : list CollectionEntry).

Lemma startBatch_attemptInv : attemptInv (startBatch h0 es).
Proof. constructor; simpl; by try constructor. Qed.

Lemma step_attemptInv (a : action) (b b' : batch) :
  attemptInv b -> step d order a b = Some b' -> attemptInv b'.
Proof.
  intros [Hw Ha He Hc Ht] Hstep.
  destruct a as [|w|w c]; simpl in Hstep.
  - unfold orchestratorStep in Hstep.
    destruct (pc b) as [[|entry rest]|[|k]|] eqn:Epc; try done.
    + injection Hstep as <-. by constructor.
    + case_decide; [|done]. injection Hstep as <-.
      constructor; simpl;
        rewrite ?attempted_app, ?emitted_app, ?sent_app; simpl;
        rewrite ?app_nil_r; try done.
      * rewrite <- app_assoc. apply Forall_app in Hw as [Hw1 Hw2].
        apply Forall_app. split; [done|]. apply Forall_cons. split; [|done].
        unfold paced, MAX_RETRIES. simpl. lia.
      * intros e. specialize (Hc e).
        rewrite sum_list_with_app, countFor_app, countFor_singleton. simpl.
        unfold queuedFor at 2. simpl. case_decide; simpl; lia.
      * rewrite sum_list_with_app, length_app. simpl.
        change (queued (newJob d entry)) with 6%nat. lia.
    + injection Hstep as <-.
      constructor; simpl;
        rewrite ?attempted_app, ?emitted_app, ?sent_app; simpl;
        rewrite ?app_nil_r; done.
    + destruct (results b) as [|job rs]; [done|].
      destruct (Success job); injection Hstep as <-;
        (constructor; simpl;
         rewrite ?attempted_app, ?emitted_app, ?sent_app; simpl;
         rewrite ?app_nil_r; done).
  - unfold workerRecvStep in Hstep.
    destruct (workers b !! w) as [[|]|] eqn:Ew; try done.
    destruct (jobs b) as [|job rest] eqn:Ej; [done|]. injection Hstep as <-.
    assert (Hperm : rest ++ inflight (<[w:=Some job]> (workers b))
                    ≡ₚ (job :: rest) ++ inflight (workers b)).
    { rewrite (inflight_take _ _ job Ew). solve_Permutation. }
    assert (Hjob : paced job).
    { apply Forall_app in Hw as [Hw _]. by apply Forall_cons in Hw as [? _]. }
    constructor; simpl;
      rewrite ?attempted_app, ?emitted_app, ?sent_app; simpl;
      rewrite ?app_nil_r; try done.
    + by rewrite Hperm.
    + apply Forall_app. split; [done|]. by apply Forall_singleton.
    + intros e. specialize (Hc e).
      rewrite (inflight_take _ _ job Ew), countFor_app, countFor_singleton.
      simpl in Hc |- *. unfold queuedFor at 1 in Hc. unfold heldFor at 1.
      destruct Hjob as [Hr _]. unfold MAX_RETRIES in *. case_decide; simpl; lia.
    + rewrite (inflight_take _ _ job Ew), length_app. simpl in Ht |- *.
      destruct Hjob as [Hr _]. unfold queued, held, MAX_RETRIES in *. lia.
  - unfold workerSelectStep in Hstep.
    destruct (workers b !! w) as [[job|]|] eqn:Ew; try done.
    pose proof (inflight_give _ _ _ Ew) as Hperm.
    assert (Hjob : paced job).
    { apply Forall_app in Hw as [_ Hw']. rewrite Forall_forall in Hw'.
      apply Hw'. by eapply inflight_elem. }
    assert (Hw' : Forall paced (jobs b ++ inflight (<[w:=None]> (workers b)))).
    { rewrite Hperm in Hw. apply Forall_app in Hw as [Hw1 Hw2].
      apply Forall_cons in Hw2 as [_ Hw2]. by apply Forall_app. }
    assert (Hc' : forall e,
      (countFor e (attempted (trace b))
       + sum_list_with (queuedFor e) (jobs b)
       + (heldFor e job + sum_list_with (heldFor e) (inflight (<[w:=None]> (workers b))))
       <= 6 * countFor e (sent (trace b)))%nat).
    { intros e. specialize (Hc e). by rewrite Hperm in Hc. }
    rewrite Hperm in Ht. simpl in Ht.
    destruct (workerSelect job c) as [r|job'] eqn:Esel.
    + case_decide; [|done]. injection Hstep as <-.
      apply workerSelect_toResults in Esel as (Hr1 & Hr2 & _).
      constructor; simpl;
        rewrite ?attempted_app, ?emitted_app, ?sent_app; simpl;
        rewrite ?app_nil_r; try done.
      * apply Forall_app. split; [done|]. apply Forall_singleton.
        unfold paced. by rewrite Hr1, Hr2.
      * intros e. specialize (Hc' e). lia.
      * lia.
    + case_decide; [|done]. injection Hstep as <-.
      pose proof (workerSelect_Entry job c) as HE. rewrite Esel in HE.
      pose proof (workerSelect_toJobs_timeout _ _ _ Esel) as Hto.
      apply workerSelect_toJobs in Esel as (_ & Hlim & _ & Hret).
      destruct Hjob as [Hr Hjt].
      assert (Hret' : retries job' = retries job + 1).
      { rewrite Hret. unfold wrap8, MAX_RETRIES in *.
        rewrite Z.mod_small by lia. lia. }
      constructor; simpl;
        rewrite ?attempted_app, ?emitted_app, ?sent_app; simpl;
        rewrite ?app_nil_r; try done.
      * apply Forall_app in Hw' as [Hw1 Hw2].
        rewrite <- app_assoc. apply Forall_app. split; [done|].
        apply Forall_cons. split; [|done]. split.
        -- rewrite Hret'. unfold MAX_RETRIES in *. lia.
        -- rewrite Hto, Hret', Hjt. unfold wrap64, MAX_RETRIES, Minute in *.
           rewrite Z.mod_small by lia. lia.
      * intros e. specialize (Hc' e). rewrite sum_list_with_app. simpl.
        unfold heldFor at 1 in Hc'. unfold queuedFor at 2. rewrite HE.
        unfold MAX_RETRIES in *. case_decide; rewrite ?Hret'; lia.
      * rewrite sum_list_with_app. simpl.
        unfold queued, held, MAX_RETRIES in *. rewrite Hret'. lia.
Qed.

Lemma exec_attemptInv (acts : list action) (b : batch) :
  attemptInv b -> attemptInv (exec d order acts b).
Proof.
  revert b. induction acts as [|a acts IH]; intros b I; [done|].
  unfold exec; simpl.
  destruct (step d order a b) as [b'|] eqn:E; simpl in *.
  - apply IH. by eapply step_attemptInv.
  - by apply IH.
Qed.

Lemma moves_turnsLeft (acts : list action) (b : batch) :
  batchInv d order h0 es b ->
  (moves d order acts b + turnsLeft (exec d order acts b) <= turnsLeft b)%nat.
Proof.
  revert b. induction acts as [|a acts IH]; intros b I; [simpl; lia|].
  unfold exec. simpl. destruct (step d order a b) as [b'|] eqn:E; simpl.
  - pose proof (step_turnsLeft d order h0 es a b b' I E).
    pose proof (IH b' (step_inv d order h0 es a b b' I E)).
    unfold exec in *. lia.
  - by apply IH.
Qed.

End Pacing.

(** X11.  Under every schedule, and whatever the [select] of each attempt
    yields: every attempt is made with at most MAX_RETRIES retries behind it
    and with the timeout of 4 minutes plus 2 minutes per retry, so with 14
    minutes at most; every result carries such a count and timeout; the jobs
    of an entry are attempted at most six times each, and a step with [n]
    entries sees at most [6 * n] attempts. *)
Theorem every_attempt_paced (d : Downloader) (order : rangeOrder) (h : History)
    (es : list CollectionEntry) (acts : list action) :
  let b := exec d order acts (startBatch h es) in
  Forall paced (attempted (trace b))
  /\ Forall paced (emitted (trace b))
  /\ Forall (fun j => 4 * Minute <= jobTimeout j <= 14 * Minute)
       (attempted (trace b))
  /\ (forall e, (countFor e (attempted (trace b))
                 <= 6 * countFor e (sent (trace b)))%nat)
  /\ (length (attempted (trace b)) <= 6 * length es)%nat.
Proof.
  intros b.
  pose proof (exec_start_inv d order h es acts) as I. fold b in I.
  destruct (exec_attemptInv d order acts (startBatch h es)
              (startBatch_attemptInv h es)) as [Hw Ha He Hc Ht].
  fold b in Hw, Ha, He, Hc, Ht.
  split; [done|]. split; [done|]. split; [|split].
  - eapply Forall_impl; [exact Ha|]. intros j [Hr Hj].
    rewrite Hj. unfold MAX_RETRIES, Minute in *. lia.
  - intros e. specialize (Hc e). lia.
  - destruct (inv_sent_le d order h es b I) as (Hs & _). lia.
Qed.

(** X12.  No send blocks.  Under every schedule the two channels hold at
    most as many jobs as they have room for and the workers hold at most
    three; a worker that holds a job can send it, to [results] or back to
    [jobs], whichever its [select] yields; and [Download] can send the next
    job. *)
Theorem sends_never_block (d : Downloader) (order : rangeOrder) (h : History)
    (es : list CollectionEntry) (acts : list action) :
  let b := exec d order acts (startBatch h es) in
  capacity b = length es
  /\ (length (jobs b) + length (inflight (workers b)) + length (results b)
      <= capacity b)%nat
  /\ (length (inflight (workers b)) <= 3)%nat
  /\ (forall w job c, workers b !! w = Some (Some job) ->
        is_Some (step d order (workerSelects w c) b))
  /\ (forall entry rest, pc b = enqueuing (entry :: rest) ->
        is_Some (step d order orchestrator b)).
Proof.
  intros b.
  pose proof (exec_start_inv d order h es acts) as I. fold b in I.
  pose proof (inv_counts d order h es b I) as Hn.
  destruct (inv_sent_le d order h es b I) as (Hs & _ & _ & Hq).
  assert (Hcap : capacity b = length es).
  { unfold capacity. by rewrite (inv_entries _ _ _ _ _ I). }
  split; [done|]. split; [lia|]. split.
  { rewrite <- (inv_workers _ _ _ _ _ I). unfold inflight.
    generalize (workers b). intros l.
    induction l as [|[x|] l IH]; cbn in *; [lia| |]; simpl; lia. }
  split.
  - intros w job c Ew. simpl. unfold workerSelectStep. rewrite Ew.
    assert (Hin : (1 <= length (inflight (workers b)))%nat).
    { apply inflight_elem in Ew. destruct (inflight (workers b)); simpl; [|lia].
      by apply elem_of_nil in Ew. }
    destruct (workerSelect job c); case_decide; try done; lia.
  - intros entry rest Hpc. simpl. unfold orchestratorStep. rewrite Hpc.
    specialize (Hq _ Hpc). simpl in Hq. case_decide; [done|]. lia.
Qed.

(** X13.  No schedule keeps a step going: of the actions of a schedule, at
    most [14 * n + 2] are not blocked, where [n] is the number of entries;
    a schedule with that many has brought the step to its end. *)
Theorem moves_bound (d : Downloader) (order : rangeOrder) (h : History)
    (es : list CollectionEntry) (acts : list action) :
  (moves d order acts (startBatch h es) <= 14 * length es + 2)%nat
  /\ (moves d order acts (startBatch h es) = (14 * length es + 2)%nat ->
      pc (exec d order acts (startBatch h es)) = scrolled).
Proof.
  pose proof (moves_turnsLeft d order h es acts (startBatch h es)
                (startBatch_inv d order h es)) as H.
  rewrite turnsLeft_start in H. unfold batchFuel in H.
  split; [lia|]. intros E. apply turnsLeft_zero. lia.
Qed.


(** X14.  Only successes are recorded.  Under every schedule, an album is
    in the history of a step exactly when it was there at the start of the
    step or a result received for its fingerprint is a success; failures
    received leave the items as they are; and the file is not written
    before the end of the step. *)
Theorem only_successes_recorded (d : Downloader) (order : rangeOrder)
    (h : History) (es : list CollectionEntry) (acts : list action)
    (t : string) :
  let b := exec d order acts (startBatch h es) in
  (containsDownload (history b) t (filetype d) = true
   <-> containsDownload h t (filetype d) = true
       \/ exists r, r ∈ received (trace b) /\ Success r = true
            /\ md5Download t (filetype d)
               = md5Download (title (Entry r)) (filetype d))
  /\ (Forall (fun r => Success r = false) (received (trace b)) ->
      items (history b) = items h)
  /\ (pc b <> scrolled -> hfile (history b) = hfile h).
Proof.
  intros b. pose proof (exec_start_inv d order h es acts) as I. fold b in I.
  pose proof (inv_items _ _ _ _ _ I) as Hi. split; [|split].
  - rewrite !containsDownload_lookup, Hi. apply recordAll_lookup.
  - intros Hall. rewrite Hi. clear Hi I.
    generalize (items h). induction Hall as [|r rs Hr _ IH]; intros m; [done|].
    change (recordAll (filetype d) m (r :: rs))
      with (recordAll (filetype d)
              (if Success r
               then <[md5Download (title (Entry r)) (filetype d) := true]> m
               else m) rs).
    rewrite Hr. apply IH.
  - intros Hpc. pose proof (inv_file _ _ _ _ _ I) as Hf.
    by destruct (pc b).
Qed.



(** ** More of [Download] *)

Lemma scrollLoop_file (w : World) (d : Downloader) (opts : DownloadOpts)
    (n i : nat) (h : History) (tr : list event) :
  exists s, file (hfile (scrollLoop w d opts n i h tr).1.2) = file (hfile h) +:+ s.
Proof.
  revert i h tr. induction n as [|n IH]; intros i h tr; simpl.
  - exists "". by rewrite string_app_nil_r.
  - destruct (Entries w i (Filter opts)) as [entries [e|]]; simpl.
    + exists "". by rewrite string_app_nil_r.
    + set (es := skipDownloaded h (filetype d) entries).
      destruct (runBatch_start d (rangeItems w) (selectOf w) h es)
        as (Hpc & I & _).
      pose proof (inv_file _ _ _ _ _ I) as Hf. rewrite Hpc in Hf.
      destruct (IH (S i)
                  (history (runBatch d (rangeItems w) (selectOf w)
                              (batchFuel (length es)) (startBatch h es)))
                  (tr ++ trace (runBatch d (rangeItems w) (selectOf w)
                                  (batchFuel (length es)) (startBatch h es))))
        as [s Hs].
      rewrite Hs, Hf, string_app_assoc. by eexists.
Qed.

(** X15.  The history file only grows, and at its end: whatever happens,
    what was in the file before the run is still there, at its beginning;
    and a run that fails before the listing leaves the file as it was and
    does nothing else. *)
Theorem history_file_append_only (d : Downloader) (opts : DownloadOpts)
    (w : World) :
  (exists s, disk (Download d opts w) = downloaded w +:+ s)
  /\ (forall e, setupError w = Some e ->
        disk (Download d opts w) = downloaded w
        /\ events (Download d opts w) = []
        /\ returned (Download d opts w) = Some e).
Proof.
  split.
  - destruct (setupError w) as [e|] eqn:Es.
    + rewrite (Download_setup_failed d opts w e Es). simpl.
      exists "". by rewrite string_app_nil_r.
    + pose proof (Download_after_setup d opts w Es) as H. cbv zeta in H.
      destruct (scrollLoop_file w d opts (Z.to_nat (ScrollTimes w).1) 0
                  (readHistory {| file := downloaded w |}) []) as [s Hs].
      simpl in Hs.
      destruct (scrollLoop w d opts (Z.to_nat (ScrollTimes w).1) 0
                  (readHistory {| file := downloaded w |}) [])
        as [[[e|] h1] tr1]; cbn [fst snd] in *.
      * rewrite H. simpl. by eexists.
      * destruct H as [-> _]. rewrite writeOut_file, Hs, string_app_assoc.
        by eexists.
  - intros e Es. by rewrite (Download_setup_failed d opts w e Es).
Qed.

Lemma scrollLoop_withTeardown (w : World) (d : Downloader) (opts : DownloadOpts)
    (closeErr stopErr : option error) (n i : nat) (h : History)
    (tr : list event) :
  scrollLoop (withTeardown w closeErr stopErr) d opts n i h tr
  = scrollLoop w d opts n i h tr.
Proof.
  revert i h tr. induction n as [|n IH]; intros i h tr; simpl; [done|].
  destruct (Entries w i (Filter opts)) as [entries [e|]]; [done|].
  by rewrite IH.
Qed.

(** X16.  The errors of [browser.Close()] and [pw.Stop()] come after the
    work: the file and the events are those of the run without them; an
    error from before is returned as it is; otherwise the error of
    [browser.Close()] is returned, and that of [pw.Stop()] only when
    [browser.Close()] has succeeded. *)
Theorem teardown_errors_keep_progress (d : Downloader) (opts : DownloadOpts)
    (w : World) (closeErr stopErr : option error) :
  let o := Download d opts (withTeardown w closeErr stopErr) in
  let o0 := Download d opts (withTeardown w None None) in
  disk o = disk o0 /\ events o = events o0
  /\ (forall e, returned o0 = Some e -> returned o = Some e)
  /\ (returned o0 = None ->
      returned o
      = match closeErr, stopErr with
        | Some e, _ => Some (Errorf "could not close browser: %v" [argError e])
        | None, Some e =>
            Some (Errorf "could not stop Playwright: %v" [argError e])
        | None, None => None
        end).
Proof.
  intros o o0. unfold o, o0, Download. simpl.
  destruct (mkdirError (Mkdir_outDir w)); [done|].
  destruct (mkdirError (Mkdir_bcdlDir w)); [done|].
  destruct (NewHistory (OpenFile w) (downloaded w)) as [history|]; [|done].
  destruct (playwrightInstall w); [done|].
  destruct (playwrightRun w); [done|].
  destruct (chromiumLaunch w); [done|].
  destruct (NewAuthorizedBandcampContext w); [done|].
  destruct (NewCollectionPage w); [done|].
  destruct (collectionGoto w); [done|].
  destruct (AlbumCount w) as [count e1]. destruct (ScrollTimes w) as [n e2].
  rewrite !scrollLoop_withTeardown.
  destruct (scrollLoop w d opts (Z.to_nat n) 0 history []) as [[[e|] h1] tr1];
    [done|].
  destruct closeErr, stopErr; done.
Qed.

(** X17.  When [page.ScrollTimes()] gives no step, [Download] lists nothing
    and sends no job, whatever the collection page shows; it writes the
    history it has read to the end of the file once more and returns what
    closing the browser and stopping Playwright return. *)
Theorem zero_steps_run (d : Downloader) (opts : DownloadOpts) (w : World) :
  setupError w = None -> (ScrollTimes w).1 <= 0 ->
  events (Download d opts w) = [historyWriteOut]
  /\ disk (Download d opts w)
     = downloaded w
       +:+ historyLines
             (rangeItems w (items (readHistory {| file := downloaded w |})))
  /\ returned (Download d opts w)
     = match browserClose w, pwStop w with
       | Some e, _ => Some (Errorf "could not close browser: %v" [argError e])
       | None, Some e =>
           Some (Errorf "could not stop Playwright: %v" [argError e])
       | None, None => None
       end.
Proof.
  intros Es Hn.
  pose proof (Download_after_setup d opts w Es) as H. cbv zeta in H.
  replace (Z.to_nat (ScrollTimes w).1) with O in H by lia.
  cbn [scrollLoop fst snd] in H. destruct H as [H1 H2].
  rewrite writeOut_file in H1. split; [done|]. split; [done|].
  clear H1 H2. revert Es. unfold setupError, Download, NewHistory, newHistoryFile.
  destruct (mkdirError (Mkdir_outDir w)); [done|].
  destruct (mkdirError (Mkdir_bcdlDir w)); [done|].
  destruct (OpenFile w); [done|].
  destruct (playwrightInstall w); [done|].
  destruct (playwrightRun w); [done|].
  destruct (chromiumLaunch w); [done|].
  destruct (NewAuthorizedBandcampContext w); [done|].
  destruct (NewCollectionPage w); [done|].
  destruct (collectionGoto w); [done|]. intros _.
  destruct (AlbumCount w) as [count e1]. destruct (ScrollTimes w) as [n e2].
  simpl in Hn. replace (Z.to_nat n) with O by lia. simpl.
  destruct (browserClose w); [done|]. by destruct (pwStop w).
Qed.

Lemma zero_steps_run_witness :
  let w := withScrollTimes
             (withDisk (exampleWorld [exampleEntry "Low"] (fun _ => allFine))
                ("ab" +:+ String LF ""))
             0 in
  events (Download exampleDownloader exampleOpts w) = [historyWriteOut]
  /\ disk (Download exampleDownloader exampleOpts w)
     = downloaded w
       +:+ historyLines
             (rangeItems w (items (readHistory {| file := downloaded w |})))
  /\ returned (Download exampleDownloader exampleOpts w)
     = match browserClose w, pwStop w with
       | Some e, _ => Some (Errorf "could not close browser: %v" [argError e])
       | None, Some e =>
           Some (Errorf "could not stop Playwright: %v" [argError e])
       | None, None => None
       end.
Proof.
  apply (zero_steps_run exampleDownloader exampleOpts
           (withScrollTimes
              (withDisk (exampleWorld [exampleEntry "Low"] (fun _ => allFine))
                 ("ab" +:+ String LF ""))
              0)).
  - reflexivity.
  - vm_compute. discriminate.
Defined.

Lemma scanLines_overflow (s rest line : string) :
  hasLF s = false ->
  shortLines s (Z.of_nat (String.length line)) = false ->
  scanLines (s +:+ rest) line = [].
Proof.
  revert line. induction s as [|c s IH]; intros line Hs Hlen; [done|].
  simpl in Hs. apply orb_false_elim in Hs as [Hc Hs].
  rewrite string_app_cons. simpl in *. rewrite Hc in *.
  destruct (MaxScanTokenSize <=? _) eqn:El; [done|].
  apply IH; [done|]. rewrite string_length_app. simpl.
  by rewrite Nat2Z.inj_add.
Qed.

(** X18.  A history file that begins with a line of [MaxScanTokenSize] bytes
    or more: [NewHistory] reads nothing from it, whatever follows that line,
    and the first step sends a job for every entry listed. *)
Theorem long_line_hides_history (d : Downloader) (opts : DownloadOpts)
    (w : World) (s rest : string) (entries : list CollectionEntry) :
  downloaded w = s +:+ rest ->
  hasLF s = false -> shortLines s 0 = false ->
  setupError w = None -> 0 < (ScrollTimes w).1 ->
  Entries w O (Filter opts) = (entries, None) ->
  items (readHistory {| file := downloaded w |}) = ∅
  /\ exists l, map Entry (sent (events (Download d opts w))) = entries ++ l.
Proof.
  intros Hd Hs Hlen Es Hn He.
  assert (Hi : items (readHistory {| file := downloaded w |}) = ∅).
  { unfold readHistory. simpl. rewrite Hd.
    by rewrite (scanLines_overflow s rest "" Hs Hlen). }
  split; [done|].
  pose proof (Download_after_setup d opts w Es) as H. cbv zeta in H.
  destruct (Z.to_nat (ScrollTimes w).1) as [|n] eqn:En; [lia|].
  simpl in H. rewrite He in H.
  set (h := readHistory {| file := downloaded w |}) in *.
  assert (Hskip : skipDownloaded h (filetype d) entries = entries).
  { unfold skipDownloaded, containsDownload. rewrite Hi. clear.
    induction entries as [|e es IH]; [done|]. simpl.
    rewrite lookup_empty. simpl. by rewrite IH. }
  rewrite Hskip in H.
  set (b := runBatch d (rangeItems w) (selectOf w) (batchFuel (length entries))
              (startBatch h entries)) in *.
  destruct (runBatch_start d (rangeItems w) (selectOf w) h entries)
    as (Hpc & I & _). fold b in Hpc, I.
  pose proof (inv_pc _ _ _ _ _ I) as Hp. rewrite Hpc in Hp. destruct Hp as [Hsent _].
  destruct (scrollLoop_extends w d opts n 1 (history b) (trace b)) as [l Hl].
  destruct (scrollLoop w d opts n 1 (history b) (trace b))
    as [[[e|] h1] tr1]; cbn [fst snd] in *.
  - rewrite H. simpl. rewrite Hl, sent_app, map_app, Hsent. by eexists.
  - destruct H as [_ ->]. rewrite Hl, !sent_app, !map_app, Hsent. simpl.
    rewrite app_nil_r. by eexists.
Qed.

Lemma long_line_hides_history_witness :
  let rest := String LF (historyLine (md5Download "Low" MP3_320)) in
  let w := withDisk (exampleWorld [exampleEntry "Low"] (fun _ => allFine))
             (longLine +:+ rest) in
  items (readHistory {| file := downloaded w |}) = ∅
  /\ exists l, map Entry (sent (events (Download exampleDownloader exampleOpts w)))
               = [exampleEntry "Low"] ++ l.
Proof.
  apply (long_line_hides_history exampleDownloader exampleOpts
           (withDisk (exampleWorld [exampleEntry "Low"] (fun _ => allFine))
              (longLine +:+ String LF (historyLine (md5Download "Low" MP3_320))))
           longLine (String LF (historyLine (md5Download "Low" MP3_320)))
           [exampleEntry "Low"]).
  - reflexivity.
  - vm_compute. reflexivity.
  - vm_compute. reflexivity.
  - reflexivity.
  - reflexivity.
  - reflexivity.
Defined.
